(** * Random-walk PageRank (package [pagerank]): model and verified properties

    The development follows the Go sources [base.go] and [pagerank.go].

    - Node objects live in a store indexed by handles (Go interface values
      holding pointers); several handles in a slice may denote the same
      object, so every [Traverse] is a write to the shared store. A handle
      always denotes a live object: nil interface values are left out.
    - The code runs sequentially (one goroutine per Graph), so the atomic
      operations of [base.go] are plain reads and writes of the counter.
    - [uint64] counters are integers with the wrap-around at [2^64] written
      out; [float32] and [float64] are IEEE 754 binary32 / binary64 values,
      computed with the executable operations of [SpecFloat].
    - [math/rand] is an external library: the generator is an interface with
      the two operations the engine calls.
    - [traverseFrom] is recursive without a bound in the source; the model
      takes a recursion budget and reports when it is exhausted. *)

From Stdlib Require Import ZArith String SpecFloat Lia.
From stdpp Require Import base functions list relations gmap.

Local Open Scope Z_scope.

(** ** IEEE 754 values and the conversions the Go code performs *)

Module ieee.

Definition float32 := spec_float.
Definition float64 := spec_float.

Definition prec32 : Z := 24.
Definition emax32 : Z := 128.
Definition prec64 : Z := 53.
Definition emax64 : Z := 1024.

(** [float64(v)] for an integer [v]: rounded to nearest, ties to even. *)
Definition float64_of_int (v : Z) : float64 :=
  binary_normalize prec64 emax64 v 0 false.

(** [float32(x)] for a [float64] value [x]. *)
Definition float32_of_float64 (x : float64) : float32 :=
  match x with
  | S754_finite sx mx ex => binary_round prec32 emax32 sx mx ex
  | _ => x
  end.

Definition div64 (x y : float64) : float64 := SFdiv prec64 emax64 x y.
Definition mul64 (x y : float64) : float64 := SFmul prec64 emax64 x y.
Definition div32 (x y : float32) : float32 := SFdiv prec32 emax32 x y.

(** [x < y] on floats; false as soon as one side is a NaN. *)
Definition ltb (x y : spec_float) : bool := SFltb x y.
Definition leb (x y : spec_float) : bool := SFleb x y.

Definition zero : spec_float := S754_zero false.
Definition one32 : float32 := S754_finite false 8388608 (-23).
Definition three32 : float32 := S754_finite false 12582912 (-22).

Definition is_nan (x : spec_float) : bool :=
  match x with S754_nan => true | _ => false end.

(** The rational value [num / den] of a finite float, as a fraction. *)
Definition to_fraction (x : spec_float) : option (Z * Z) :=
  match x with
  | S754_zero _ => Some (0, 1)
  | S754_finite s m e =>
      let sm := if s then Z.neg m else Z.pos m in
      if 0 <=? e then Some (sm * 2 ^ e, 1) else Some (sm, 2 ^ (- e))
  | _ => None
  end.

End ieee.
Import ieee.

(** ** uint64 arithmetic *)

Definition uint64_modulus : Z := 2 ^ 64.

Definition uint64_add (a b : Z) : Z := (a + b) mod uint64_modulus.

(** ** The Node interface (pagerank.go) *)

(** An implementation of [Node] is a type of objects with the three methods.
    [Traverse] mutates its receiver: it maps the object before the call to
    the object after it. *)
Class Node (N : Type) := {
  IsStarter : N -> bool;
  Traverse : N -> N;
  Traversals : N -> Z
}.

(** What section 4.1 of the specification requires of an implementation:
    [Traverse] adds exactly one to the counter read by [Traversals] and does
    not change the starter flag. *)
Class NodeContract (N : Type) `{Node N} : Prop := {
  Traversals_Traverse :
    forall n : N, Traversals (Traverse n) = uint64_add (Traversals n) 1;
  IsStarter_Traverse :
    forall n : N, IsStarter (Traverse n) = IsStarter n
}.

(** ** base.go *)

Module base.

Record Base := { traversals : Z; nonstarter : bool }.

Definition Base_IsStarter (b : Base) : bool := negb (nonstarter b).

(** [atomic.AddUint64(&b.traversals, 1)] *)
Definition Base_Traverse (b : Base) : Base :=
  {| traversals := uint64_add (traversals b) 1; nonstarter := nonstarter b |}.

(** [atomic.LoadUint64(&b.traversals)] *)
Definition Base_Traversals (b : Base) : Z := traversals b.

End base.

#[export] Instance Base_Node : Node base.Base := {
  IsStarter := base.Base_IsStarter;
  Traverse := base.Base_Traverse;
  Traversals := base.Base_Traversals
}.

(** ** The random source (math/rand, external) *)

(** The two methods of [*rand.Rand] that the engine calls, as transformers
    of the generator's state, and [rand.New(rand.NewSource(seed))]. *)
Class RandSource (R : Type) := {
  NewSource : Z -> R;
  Float32 : R -> float32 * R;
  Intn : Z -> R -> Z * R
}.

(** The documented contract of [math/rand]: [Float32] returns a number in
    the half-open interval [[0.0,1.0)], and [Intn n] one in [[0,n)]. *)
Class RandContract (R : Type) `{RandSource R} : Prop := {
  Float32_range :
    forall r : R, leb zero (fst (Float32 r)) = true /\
                  ltb (fst (Float32 r)) one32 = true;
  Intn_range :
    forall (n : Z) (r : R), 0 < n -> 0 <= fst (Intn n r) < n
}.

(** ** Outcomes of running Go code that may fail to return *)

Inductive outcome (A : Type) : Type :=
| Done (a : A)        (* the call returned *)
| Panic               (* run-time panic: index out of range *)
| OutOfFuel.          (* the recursion budget was exhausted *)
Arguments Done {A} a.
Arguments Panic {A}.
Arguments OutOfFuel {A}.

#[export] Instance outcome_bind : MBind outcome := fun A B k m =>
  match m with
  | Done a => k a
  | Panic => Panic
  | OutOfFuel => OutOfFuel
  end.

(** [fmt.Errorf(msg)] *)
Inductive error : Type := Errorf (msg : string).

Definition not_calculated : error :=
  Errorf "Pagerank graph has not yet been calculated".

(** ** pagerank.go *)

Section Engine.

(** Node handles, the node implementation and the generator. *)
Context {loc : Type} `{EqDecision loc}.
Context {N : Type} `{Node N}.
Context {R : Type} `{RandSource R}.

(** The node objects, by handle. *)
Definition Store : Type := loc -> N.

Record Graph := {
  (* Provided by the user in the constructor *)
  nodes : list loc;
  edgesFor : loc -> list loc;
  randomSource : R;
  (* Caches and other unexported values *)
  traversals : Z;
  jumpProbability : float32;
  calculated : bool;
  summed : bool
}.

Definition set_randomSource (r : R) (g : Graph) : Graph :=
  {| nodes := nodes g; edgesFor := edgesFor g; randomSource := r;
     traversals := traversals g; jumpProbability := jumpProbability g;
     calculated := calculated g; summed := summed g |}.

Definition set_traversals (t : Z) (g : Graph) : Graph :=
  {| nodes := nodes g; edgesFor := edgesFor g; randomSource := randomSource g;
     traversals := t; jumpProbability := jumpProbability g;
     calculated := calculated g; summed := summed g |}.

Definition set_jumpProbability (p : float32) (g : Graph) : Graph :=
  {| nodes := nodes g; edgesFor := edgesFor g; randomSource := randomSource g;
     traversals := traversals g; jumpProbability := p;
     calculated := calculated g; summed := summed g |}.

Definition set_calculated (b : bool) (g : Graph) : Graph :=
  {| nodes := nodes g; edgesFor := edgesFor g; randomSource := randomSource g;
     traversals := traversals g; jumpProbability := jumpProbability g;
     calculated := b; summed := summed g |}.

Definition set_summed (b : bool) (g : Graph) : Graph :=
  {| nodes := nodes g; edgesFor := edgesFor g; randomSource := randomSource g;
     traversals := traversals g; jumpProbability := jumpProbability g;
     calculated := calculated g; summed := b |}.

Definition NewGraph (seed : Z) (edgesFor : loc -> list loc)
    (nodes : list loc) : Graph :=
  {| nodes := nodes; edgesFor := edgesFor; randomSource := NewSource seed;
     traversals := 0; jumpProbability := zero;
     calculated := false; summed := false |}.

(** The loop [for _, node := range *g.nodes { g.traversals += node.Traversals() }] *)
Definition sum_traversals (s : Store) (ns : list loc) (acc : Z) : Z :=
  fold_left (fun t node => uint64_add t (Traversals (s node))) ns acc.

Definition Pagerank (g : Graph) (s : Store) (node : loc) (normalized : bool)
    : Graph * (float32 * option error) :=
  if negb (calculated g) then (g, (zero, Some not_calculated))
  else
    let g :=
      if negb (summed g)
      then set_summed true
             (set_traversals (sum_traversals s (nodes g) (traversals g)) g)
      else g in
    if normalized
    then (g, (float32_of_float64
                (div64 (float64_of_int (Traversals (s node)))
                       (float64_of_int (traversals g))),
              None))
    else (g, (float32_of_float64
                (div64 (mul64 (float64_of_int (Z.of_nat (length (nodes g))))
                              (float64_of_int (Traversals (s node))))
                       (float64_of_int (traversals g))),
              None)).

Fixpoint traverseFrom (fuel : nat) (g : Graph) (s : Store) (node : loc)
    : outcome (Graph * Store) :=
  match fuel with
  | O => OutOfFuel
  | S fuel =>
      let s := <[node := Traverse (s node)]> s in
      (* Terminate the traversal with probability 1/g.jumpProbability *)
      let (x, r) := Float32 (randomSource g) in
      let g := set_randomSource r g in
      if ltb x (jumpProbability g) then Done (g, s)
      else
        let outlinks := edgesFor g node in
        (* Terminate the traversal if the node has no outgoing links *)
        if Z.of_nat (length outlinks) <? 1 then Done (g, s)
        else
          (* Continue the traversal from a randomly chosen outgoing link *)
          let (k, r) := Intn (Z.of_nat (length outlinks)) (randomSource g) in
          let g := set_randomSource r g in
          if k <? 0 then Panic
          else match outlinks !! Z.to_nat k with
               | Some next => traverseFrom fuel g s next
               | None => Panic
               end
  end.

(** [for round := 0; round < RoundsPerNode; round++ { g.traverseFrom(node) }],
    with [rounds] the number of iterations left. *)
Fixpoint run_rounds (fuel : nat) (rounds : nat) (node : loc)
    (g : Graph) (s : Store) : outcome (Graph * Store) :=
  match rounds with
  | O => Done (g, s)
  | S rounds =>
      '(g, s) ← traverseFrom fuel g s node;
      run_rounds fuel rounds node g s
  end.

(** [for _, node := range *g.nodes { ... }] *)
Fixpoint range_nodes (fuel : nat) (RoundsPerNode : Z) (ns : list loc)
    (g : Graph) (s : Store) : outcome (Graph * Store) :=
  match ns with
  | [] => Done (g, s)
  | node :: ns =>
      (* Only start at starter nodes *)
      if negb (IsStarter (s node)) then range_nodes fuel RoundsPerNode ns g s
      else
        '(g, s) ← run_rounds fuel (Z.to_nat RoundsPerNode) node g s;
        range_nodes fuel RoundsPerNode ns g s
  end.

(** Calculate runs the Pagerank computation on your graph in-place. *)
Definition Calculate (fuel : nat) (g : Graph) (s : Store)
    (JumpProbability : float32) (RoundsPerNode : Z)
    : outcome (Graph * Store) :=
  let g := set_jumpProbability JumpProbability g in
  '(g, s) ← range_nodes fuel RoundsPerNode (nodes g) g s;
  Done (set_calculated true g, s).

(** *** The walk, as the specification words it

    Call [Traverse()] on the current node; draw a float; if it is less
    than [jumpProbability], terminate; otherwise resolve the outgoing
    neighbours; if none exist, terminate; otherwise pick one neighbour at
    the drawn index and continue the same walk from it.
    [spec_walk g s node g' s'] relates the state before a walk from [node] to
    the state after it. *)
Inductive spec_walk (g : Graph) (s : Store) (node : loc)
    : Graph -> Store -> Prop :=
| spec_walk_jump x r :
    Float32 (randomSource g) = (x, r) ->
    ltb x (jumpProbability g) = true ->
    spec_walk g s node (set_randomSource r g) (<[node := Traverse (s node)]> s)
| spec_walk_dead_end x r :
    Float32 (randomSource g) = (x, r) ->
    ltb x (jumpProbability g) = false ->
    edgesFor g node = [] ->
    spec_walk g s node (set_randomSource r g) (<[node := Traverse (s node)]> s)
| spec_walk_hop x r k r' next g' s' :
    Float32 (randomSource g) = (x, r) ->
    ltb x (jumpProbability g) = false ->
    edgesFor g node <> [] ->
    Intn (Z.of_nat (length (edgesFor g node))) r = (k, r') ->
    0 <= k ->
    edgesFor g node !! Z.to_nat k = Some next ->
    spec_walk (set_randomSource r' g) (<[node := Traverse (s node)]> s) next g' s' ->
    spec_walk g s node g' s'.

(** *** The pass of [Calculate], as the specification words it

    [spec_origins]: the origins of the walks of one pass, in the order in which they are
    started: [RoundsPerNode] times every starter of the collection, in
    collection order, and nothing for the other nodes. *)
Definition spec_origins (s : Store) (RoundsPerNode : Z) (ns : list loc)
    : list loc :=
  flat_map (fun node => if IsStarter (s node)
                        then replicate (Z.to_nat RoundsPerNode) node
                        else []) ns.

(** One walk after the other, from the given origins. *)
Fixpoint run_walks (fuel : nat) (starts : list loc)
    (g : Graph) (s : Store) : outcome (Graph * Store) :=
  match starts with
  | [] => Done (g, s)
  | node :: starts =>
      '(g, s) ← traverseFrom fuel g s node;
      run_walks fuel starts g s
  end.

(** *** Sequences of calls on one Graph instance *)

Inductive call : Type :=
| CallCalculate (JumpProbability : float32) (RoundsPerNode : Z)
| CallPagerank (node : loc) (normalized : bool).

Definition run_call (fuel : nat) (c : call) (g : Graph) (s : Store)
    : outcome (Graph * Store) :=
  match c with
  | CallCalculate JumpProbability RoundsPerNode =>
      Calculate fuel g s JumpProbability RoundsPerNode
  | CallPagerank node normalized =>
      Done (fst (Pagerank g s node normalized), s)
  end.

Fixpoint run_calls (fuel : nat) (cs : list call) (g : Graph) (s : Store)
    : outcome (Graph * Store) :=
  match cs with
  | [] => Done (g, s)
  | c :: cs => '(g, s) ← run_call fuel c g s; run_calls fuel cs g s
  end.

(** *** Observations used in the statements *)

(** The exact sum of the counters of a list of nodes. *)
Definition total_traversals (s : Store) (ns : list loc) : Z :=
  foldr (fun node t => Traversals (s node) + t) 0 ns.

(** How many walks of a list of origins start at [node]. *)
Definition walks_from (node : loc) (starts : list loc) : nat :=
  length (filter (fun n => n = node) starts).

(** Two stores that a caller cannot tell apart through the interface. *)
Definition same_counts (s1 s2 : Store) : Prop :=
  forall l : loc, Traversals (s1 l) = Traversals (s2 l) /\
                  IsStarter (s1 l) = IsStarter (s2 l).

Definition same_outcome (o1 o2 : outcome (Graph * Store)) : Prop :=
  match o1, o2 with
  | Done (g1, s1), Done (g2, s2) => g1 = g2 /\ same_counts s1 s2
  | Panic, Panic => True
  | OutOfFuel, OutOfFuel => True
  | _, _ => False
  end.

(** The graph fields that a walk never writes. *)
Definition same_but_random (g g' : Graph) : Prop :=
  nodes g' = nodes g /\ edgesFor g' = edgesFor g /\
  traversals g' = traversals g /\ jumpProbability g' = jumpProbability g /\
  calculated g' = calculated g /\ summed g' = summed g.

(** The value [Pagerank] computes once the total is in [g.traversals]. *)
Definition score (g : Graph) (s : Store) (node : loc) (normalized : bool)
    (total : Z) : float32 :=
  if normalized
  then float32_of_float64
         (div64 (float64_of_int (Traversals (s node))) (float64_of_int total))
  else float32_of_float64
         (div64 (mul64 (float64_of_int (Z.of_nat (length (nodes g))))
                       (float64_of_int (Traversals (s node))))
                (float64_of_int total)).

(** The graph after the summation step of [Pagerank]. *)
Definition with_total (g : Graph) (s : Store) : Graph :=
  if negb (summed g)
  then set_summed true
         (set_traversals (sum_traversals s (nodes g) (traversals g)) g)
  else g.

End Engine.

Arguments Graph loc R : clear implicits.
Arguments Store loc N : clear implicits.

(** ** A scripted generator

    A small deterministic generator that meets the contract of [math/rand]:
    its state is a position; [Float32] reads a cyclic table of four values
    of [[0,1)] and [Intn n] returns the position modulo [n]. It instantiates
    the general statements on concrete runs. *)

Module script.

Record counter := Counter { position : nat }.

Definition half32 : float32 := S754_finite false 8388608 (-24).
Definition quarter32 : float32 := S754_finite false 8388608 (-25).
Definition three_quarters32 : float32 := S754_finite false 12582912 (-24).

Definition table (i : nat) : float32 :=
  match i with
  | O => zero
  | S O => half32
  | S (S O) => quarter32
  | _ => three_quarters32
  end.

Definition counter_NewSource (seed : Z) : counter :=
  Counter (Z.to_nat (Z.abs seed)).

Definition counter_Float32 (c : counter) : float32 * counter :=
  (table (position c mod 4), Counter (S (position c))).

Definition counter_Intn (n : Z) (c : counter) : Z * counter :=
  (Z.of_nat (position c) mod n, Counter (S (position c))).

End script.

#[export] Instance counter_RandSource : RandSource script.counter := {
  NewSource := script.counter_NewSource;
  Float32 := script.counter_Float32;
  Intn := script.counter_Intn
}.

(** ** Concrete graphs *)

Module example.

Inductive abc : Type := A | B | C.

#[global] Instance abc_eq_dec : EqDecision abc.
Proof. solve_decision. Defined.

(** The cycle A -> B -> C -> A. *)
Definition cycle (n : abc) : list abc :=
  match n with A => [B] | B => [C] | C => [A] end.

(** No edges at all. *)
Definition no_edges (n : abc) : list abc := [].

(** The single edge A -> B. *)
Definition a_to_b (n : abc) : list abc :=
  match n with A => [B] | _ => [] end.

(** Fresh nodes: zero counters, every node a starter. *)
Definition fresh : Store abc base.Base :=
  fun _ => {| base.traversals := 0; base.nonstarter := false |}.

(** Fresh nodes of which only [A] is a starter. *)
Definition only_a_starts : Store abc base.Base :=
  fun n => {| base.traversals := 0;
              base.nonstarter := match n with A => false | _ => true end |}.

Definition jump015 : float32 := S754_finite false 10066330 (-26).

(** The graphs of the scenarios, with the scripted generator. *)
Definition cycle_graph : Graph abc script.counter := NewGraph 7 cycle [A; B; C].
Definition lone_graph : Graph abc script.counter := NewGraph 7 no_edges [A].
Definition hop_graph : Graph abc script.counter := NewGraph 7 a_to_b [A; B].

(** [Calculate], a query, and [Calculate] again, on the lone node [A]. *)
Definition calculate_twice : list (@call abc) :=
  [CallCalculate one32 1; CallPagerank A true; CallCalculate one32 1].

(** Nodes that were visited once, twice and three times. *)
Definition visited : Store abc base.Base :=
  fun n => {| base.traversals := match n with A => 1 | B => 2 | C => 3 end;
              base.nonstarter := false |}.

(** The cycle graph as [Calculate] leaves it. *)
Definition calculated_cycle : Graph abc script.counter :=
  set_calculated true cycle_graph.

Definition two32 : float32 := S754_finite false 8388608 (-22).
Definition third32 : float32 := S754_finite false 11184811 (-25).

End example.

(** ** Paths in the caller's graph *)

Section Paths.

Context {loc : Type}.

(** [follows edges node rest]: every node of [rest] is an outgoing
    neighbour, by the edge resolver, of the node visited just before it,
    the first one of [node]. *)
Fixpoint follows (edges : loc -> list loc) (node : loc) (rest : list loc)
    : Prop :=
  match rest with
  | [] => True
  | next :: rest => next ∈ edges node /\ follows edges next rest
  end.

(** Reachable in zero or more edges. *)
Definition reachable (edges : loc -> list loc) : loc -> loc -> Prop :=
  rtc (fun a b => b ∈ edges a).

End Paths.

(** ** The earlier engine (unnamed/part_000)

    An earlier version of [pagerank.go], in which the Graph owns the graph:
    a map from nodes to positions, the nodes in order of first mention and
    the out-neighbours by position, built by [AddEdge]. Its [Node]
    interface also has [ID()], which no function of the file calls. *)

Module part_000.

Section Legacy.

Context {loc : Type} `{Countable loc}.
Context {N : Type} `{Node N}.
Context {R : Type} `{RandSource R}.

Record Graph := {
  nodeMap : gmap loc nat;
  nodes : list loc;
  edges : list (list loc);
  traversals : Z;
  (* Caches and other unexported values *)
  randomSource : R;
  jumpProbability : float32;
  calculated : bool
}.

Definition set_edges (e : list (list loc)) (g : Graph) : Graph :=
  {| nodeMap := nodeMap g; nodes := nodes g; edges := e;
     traversals := traversals g; randomSource := randomSource g;
     jumpProbability := jumpProbability g; calculated := calculated g |}.

Definition set_traversals (t : Z) (g : Graph) : Graph :=
  {| nodeMap := nodeMap g; nodes := nodes g; edges := edges g;
     traversals := t; randomSource := randomSource g;
     jumpProbability := jumpProbability g; calculated := calculated g |}.

Definition set_randomSource (r : R) (g : Graph) : Graph :=
  {| nodeMap := nodeMap g; nodes := nodes g; edges := edges g;
     traversals := traversals g; randomSource := r;
     jumpProbability := jumpProbability g; calculated := calculated g |}.

Definition set_jumpProbability (p : float32) (g : Graph) : Graph :=
  {| nodeMap := nodeMap g; nodes := nodes g; edges := edges g;
     traversals := traversals g; randomSource := randomSource g;
     jumpProbability := p; calculated := calculated g |}.

Definition set_calculated (b : bool) (g : Graph) : Graph :=
  {| nodeMap := nodeMap g; nodes := nodes g; edges := edges g;
     traversals := traversals g; randomSource := randomSource g;
     jumpProbability := jumpProbability g; calculated := b |}.

Definition NewGraph (seed : Z) : Graph :=
  {| nodeMap := ∅; nodes := []; edges := [];
     traversals := 0; randomSource := NewSource seed;
     jumpProbability := zero; calculated := false |}.

(** The block that [AddEdge] runs for each of its two arguments:
    [if _, exists := g.nodeMap[node]; !exists { ... }]. *)
Definition add_node (node : loc) (g : Graph) : Graph :=
  match nodeMap g !! node with
  | Some _ => g
  | None =>
      let nodes' := nodes g ++ [node] in
      {| nodeMap := <[node := (length nodes' - 1)%nat]> (nodeMap g);
         nodes := nodes'; edges := edges g ++ [[]];
         traversals := traversals g; randomSource := randomSource g;
         jumpProbability := jumpProbability g; calculated := calculated g |}
  end.

(** A Go map read [g.nodeMap[node]]: the zero value when the key is absent. *)
Definition position (g : Graph) (node : loc) : nat :=
  default 0%nat (nodeMap g !! node).

Definition AddEdge (g : Graph) (nodeFrom nodeTo : loc) : outcome Graph :=
  let g := add_node nodeFrom g in
  let g := add_node nodeTo g in
  match edges g !! position g nodeFrom with
  | Some outs =>
      Done (set_edges (<[position g nodeFrom := outs ++ [nodeTo]]> (edges g)) g)
  | None => Panic
  end.

Definition Pagerank (g : Graph) (s : Store loc N) (node : loc)
    (normalized : bool) : Graph * (float32 * option error) :=
  if negb (calculated g) then (g, (zero, Some not_calculated))
  else
    let g :=
      if traversals g =? 0
      then set_traversals
             (fold_left (fun t node => uint64_add t (Traversals (s node)))
                        (nodes g) (traversals g)) g
      else g in
    if normalized
    then (g, (float32_of_float64
                (div64 (float64_of_int (Traversals (s node)))
                       (float64_of_int (traversals g))),
              None))
    else (g, (float32_of_float64
                (div64 (mul64 (float64_of_int (Z.of_nat (length (edges g))))
                              (float64_of_int (Traversals (s node))))
                       (float64_of_int (traversals g))),
              None)).

(** [g.edges[g.nodeMap[node]]] *)
Definition outlinks (g : Graph) (node : loc) : outcome (list loc) :=
  match edges g !! position g node with
  | Some outs => Done outs
  | None => Panic
  end.

Fixpoint traverseFrom (fuel : nat) (g : Graph) (s : Store loc N) (node : loc)
    : outcome (Graph * Store loc N) :=
  match fuel with
  | O => OutOfFuel
  | S fuel =>
      let s := <[node := Traverse (s node)]> s in
      (* Terminate the traversal with probability 1/g.jumpProbability *)
      let (x, r) := Float32 (randomSource g) in
      let g := set_randomSource r g in
      if ltb x (jumpProbability g) then Done (g, s)
      else
        outlinks ← outlinks g node;
        (* Terminate the traversal if the node has no outgoing links *)
        if Z.of_nat (length outlinks) <? 1 then Done (g, s)
        else
          (* Continue the traversal from a randomly chosen outgoing link *)
          let (k, r) := Intn (Z.of_nat (length outlinks)) (randomSource g) in
          let g := set_randomSource r g in
          if k <? 0 then Panic
          else match outlinks !! Z.to_nat k with
               | Some next => traverseFrom fuel g s next
               | None => Panic
               end
  end.

Fixpoint run_rounds (fuel : nat) (rounds : nat) (node : loc)
    (g : Graph) (s : Store loc N) : outcome (Graph * Store loc N) :=
  match rounds with
  | O => Done (g, s)
  | S rounds =>
      '(g, s) ← traverseFrom fuel g s node;
      run_rounds fuel rounds node g s
  end.

Fixpoint range_nodes (fuel : nat) (RoundsPerNode : Z) (ns : list loc)
    (g : Graph) (s : Store loc N) : outcome (Graph * Store loc N) :=
  match ns with
  | [] => Done (g, s)
  | node :: ns =>
      (* Only start at starter nodes *)
      if negb (IsStarter (s node)) then range_nodes fuel RoundsPerNode ns g s
      else
        '(g, s) ← run_rounds fuel (Z.to_nat RoundsPerNode) node g s;
        range_nodes fuel RoundsPerNode ns g s
  end.

(** Calculate runs the Pagerank computation on your graph in-place. *)
Definition Calculate (fuel : nat) (g : Graph) (s : Store loc N)
    (JumpProbability : float32) (RoundsPerNode : Z)
    : outcome (Graph * Store loc N) :=
  let g := set_jumpProbability JumpProbability g in
  '(g, s) ← range_nodes fuel RoundsPerNode (nodes g) g s;
  Done (set_calculated true g, s).

(** *** The shape of the graphs that [NewGraph] and [AddEdge] build *)

Record wf (g : Graph) : Prop := {
  wf_length : length (edges g) = length (nodes g);
  wf_position :
    forall n i, nodeMap g !! n = Some i <-> nodes g !! i = Some n;
  wf_closed :
    forall outs m, outs ∈ edges g -> m ∈ outs -> m ∈ nodes g
}.

(** The out-neighbours [AddEdge] has recorded for a node, none for a node
    that it has not seen. *)
Definition recorded (g : Graph) (node : loc) : list loc :=
  match nodeMap g !! node with
  | Some i => default [] (edges g !! i)
  | None => []
  end.

End Legacy.

Arguments Graph loc {_ _} R.

End part_000.

(** The graph an earlier-engine Graph stands for, as the current engine
    takes it: the nodes in order, the recorded out-neighbours as edge
    resolver, and the total counted as cached as soon as it is not zero. *)
Definition to_current {loc : Type} `{Countable loc} {R : Type}
    (g : part_000.Graph loc R) : Graph loc R :=
  {| nodes := part_000.nodes g;
     edgesFor := part_000.recorded g;
     randomSource := part_000.randomSource g;
     traversals := part_000.traversals g;
     jumpProbability := part_000.jumpProbability g;
     calculated := part_000.calculated g;
     summed := negb (part_000.traversals g =? 0) |}.

(** A result of the earlier engine, read as one of the current engine. *)
Definition lift_current {loc : Type} `{Countable loc} {N R : Type}
    (p : part_000.Graph loc R * Store loc N)
    : outcome (Graph loc R * Store loc N) :=
  Done (to_current (fst p), snd p).

(** ** Concrete graphs of the earlier engine *)

Module legacy_example.

Import example.

#[global] Instance abc_countable : Countable abc.
Proof.
  refine (inj_countable'
            (fun x : abc => match x with A => 0%nat | B => 1%nat | C => 2%nat end)
            (fun n : nat => match n with 0%nat => A | 1%nat => B | _ => C end) _).
  intros []; reflexivity.
Defined.

Definition empty_graph : part_000.Graph abc script.counter :=
  part_000.NewGraph 7.

(** The graph after [AddEdge(A, B)], as an outcome. *)
Definition a_b : outcome (part_000.Graph abc script.counter) :=
  part_000.AddEdge empty_graph A B.

End legacy_example.

(** ** The node type of the package's tests (pagerank_test.go) *)

Module pagerank_test.

(** Satisfies the pagerank.Node interface *)
Record nodeExample := {
  Base : base.Base;
  name : string;
  id : Z
}.

(** The methods of the embedded [Base], promoted to [nodeExample]. *)
Definition nodeExample_IsStarter (n : nodeExample) : bool :=
  base.Base_IsStarter (Base n).

Definition nodeExample_Traverse (n : nodeExample) : nodeExample :=
  {| Base := base.Base_Traverse (Base n); name := name n; id := id n |}.

Definition nodeExample_Traversals (n : nodeExample) : Z :=
  base.Base_Traversals (Base n).

End pagerank_test.

#[export] Instance nodeExample_Node : Node pagerank_test.nodeExample := {
  IsStarter := pagerank_test.nodeExample_IsStarter;
  Traverse := pagerank_test.nodeExample_Traverse;
  Traversals := pagerank_test.nodeExample_Traversals
}.

(** ** A generator that breaks the contract of [Intn]

    [Intn(n)] returns [n] itself, one past the last index; [Float32]
    always returns 0.5. *)

Module overshoot.

Record stuck := Stuck { }.

Definition stuck_NewSource (seed : Z) : stuck := Stuck.

Definition stuck_Float32 (r : stuck) : float32 * stuck :=
  (script.half32, r).

Definition stuck_Intn (n : Z) (r : stuck) : Z * stuck := (n, r).

End overshoot.

#[export] Instance stuck_RandSource : RandSource overshoot.stuck := {
  NewSource := overshoot.stuck_NewSource;
  Float32 := overshoot.stuck_Float32;
  Intn := overshoot.stuck_Intn
}.

(** ** Two sets of node objects for one graph *)

Module twins.

Import example.

(** The nodes a caller built first: ids 0, 1, 2. *)
Definition first_nodes : Store abc pagerank_test.nodeExample :=
  fun n =>
    {| pagerank_test.Base := {| base.traversals := 0; base.nonstarter := false |};
       pagerank_test.name := match n with A => "a" | B => "b" | C => "c" end;
       pagerank_test.id := match n with A => 0 | B => 1 | C => 2 end |}.

(** Other objects for the same graph: other names and ids, same counters
    and starter flags. *)
Definition second_nodes : Store abc pagerank_test.nodeExample :=
  fun n =>
    {| pagerank_test.Base := {| base.traversals := 0; base.nonstarter := false |};
       pagerank_test.name := match n with A => "x" | B => "y" | C => "z" end;
       pagerank_test.id := match n with A => 10 | B => 11 | C => 12 end |}.


End twins.

(** * Properties *)

Lemma bind_Done {A B : Type} (m : outcome A) (k : A -> outcome B) (b : B) :
  m ≫= k = Done b -> exists a, m = Done a /\ k a = Done b.
Proof. destruct m as [a| |]; simpl; intros E; try discriminate. eauto. Qed.

Section EngineFacts.

Context {loc : Type} `{EqDecision loc}.
Context {N : Type} `{Node N}.
Context {R : Type} `{RandSource R}.

Local Abbreviation Graph := (Graph loc R).
Local Abbreviation Store := (Store loc N).

Implicit Types (g : Graph) (s : Store) (node : loc).

(** *** Frame: what a walk leaves alone *)

Lemma same_but_random_refl g : same_but_random g g.
Proof. repeat split. Qed.

Lemma same_but_random_set r g : same_but_random g (set_randomSource r g).
Proof. repeat split. Qed.

Lemma same_but_random_trans g1 g2 g3 :
  same_but_random g1 g2 -> same_but_random g2 g3 -> same_but_random g1 g3.
Proof.
  unfold same_but_random.
  intros (?&?&?&?&?&?) (?&?&?&?&?&?). repeat split; congruence.
Qed.

Lemma empty_outlinks (l : list loc) :
  (Z.of_nat (length l) <? 1) = true <-> l = [].
Proof.
  destruct l as [|a l]; simpl length.
  - split; reflexivity.
  - split; [intros E; apply Z.ltb_lt in E; lia | discriminate].
Qed.

Lemma traverseFrom_same_but_random fuel : forall g s node g' s',
  traverseFrom fuel g s node = Done (g', s') -> same_but_random g g'.
Proof.
  induction fuel as [|fuel IH]; intros g s node g' s' E; [discriminate|].
  simpl in E.
  destruct (Float32 (randomSource g)) as [x r].
  destruct (ltb x (jumpProbability g)).
  { injection E as <- _. apply same_but_random_set. }
  destruct (Z.of_nat (length (edgesFor g node)) <? 1).
  { injection E as <- _. apply same_but_random_set. }
  destruct (Intn _ r) as [k r'].
  destruct (k <? 0); [discriminate|].
  destruct (edgesFor g node !! Z.to_nat k) as [next|]; [|discriminate].
  apply IH in E. revert E. apply same_but_random_trans.
  repeat split.
Qed.

(** *** The recursion budget *)

Lemma traverseFrom_fuel_mono fuel : forall fuel' g s node res,
  (fuel <= fuel')%nat ->
  traverseFrom fuel g s node = Done res ->
  traverseFrom fuel' g s node = Done res.
Proof.
  induction fuel as [|fuel IH]; intros fuel' g s node res Hle E;
    [discriminate|].
  destruct fuel' as [|fuel']; [lia|].
  simpl in E |- *.
  destruct (Float32 (randomSource g)) as [x r].
  destruct (ltb x (jumpProbability g)); [exact E|].
  destruct (Z.of_nat (length (edgesFor g node)) <? 1); [exact E|].
  destruct (Intn _ r) as [k r'].
  destruct (k <? 0); [discriminate|].
  destruct (edgesFor g node !! Z.to_nat k) as [next|]; [|discriminate].
  apply IH with (fuel' := fuel') in E; [exact E | lia].
Qed.

(** *** The walk relation and the recursive function agree *)

Lemma traverseFrom_walk fuel : forall g s node g' s',
  traverseFrom fuel g s node = Done (g', s') -> spec_walk g s node g' s'.
Proof.
  induction fuel as [|fuel IH]; intros g s node g' s' E; [discriminate|].
  simpl in E.
  destruct (Float32 (randomSource g)) as [x r] eqn:Ex.
  destruct (ltb x (jumpProbability g)) eqn:Ejump.
  { injection E as <- <-. eapply spec_walk_jump; eassumption. }
  destruct (Z.of_nat (length (edgesFor g node)) <? 1) eqn:Elen.
  { injection E as <- <-. apply empty_outlinks in Elen.
    eapply spec_walk_dead_end; eassumption. }
  destruct (Intn _ r) as [k r'] eqn:Ek.
  destruct (k <? 0) eqn:Eneg; [discriminate|].
  destruct (edgesFor g node !! Z.to_nat k) as [next|] eqn:Enext;
    [|discriminate].
  apply IH in E.
  eapply spec_walk_hop; try eassumption.
  - intros Hnil. apply empty_outlinks in Hnil. congruence.
  - apply Z.ltb_ge in Eneg. exact Eneg.
Qed.

Lemma walk_traverseFrom g s node g' s' :
  spec_walk g s node g' s' ->
  exists fuel, traverseFrom fuel g s node = Done (g', s').
Proof.
  induction 1 as [g s node x r Ex Ejump
                 |g s node x r Ex Ejump Hnil
                 |g s node x r k r' next g' s' Ex Ejump Hne Ek Hk Enext _ IH].
  - exists 1%nat. simpl. rewrite Ex. simpl. rewrite Ejump. reflexivity.
  - exists 1%nat. simpl. rewrite Ex. simpl. rewrite Ejump, Hnil. reflexivity.
  - destruct IH as [fuel IH]. exists (S fuel). simpl. rewrite Ex. simpl.
    rewrite Ejump.
    destruct (Z.of_nat (length (edgesFor g node)) <? 1) eqn:Elen.
    { apply empty_outlinks in Elen. contradiction. }
    rewrite Ek. simpl.
    destruct (k <? 0) eqn:Eneg; [apply Z.ltb_lt in Eneg; lia|].
    rewrite Enext. exact IH.
Qed.

Lemma traverseFrom_dead_end fuel g s node :
  edgesFor g node = [] ->
  traverseFrom (S fuel) g s node
  = Done (set_randomSource (snd (Float32 (randomSource g))) g,
          <[node := Traverse (s node)]> s).
Proof.
  intros Hnil. simpl.
  destruct (Float32 (randomSource g)) as [x r]. simpl.
  rewrite Hnil. simpl.
  destruct (ltb x (jumpProbability g)); reflexivity.
Qed.

(** C1. Each step of a walk first calls [Traverse()] on the current node,
    then draws a float from the random source and ends the walk if the draw
    is strictly less than [jumpProbability]; otherwise it resolves the
    outgoing neighbours with the caller's edge resolver, ends the walk if
    there are none, and otherwise continues the walk from the neighbour at
    the index drawn by [Intn(len(outlinks))]: the recursive function returns
    exactly the final states of the walk relation, and it does return them
    with any large enough budget. A node without outgoing edges ends the walk
    right after being visited, whatever [jumpProbability] is: the node was
    traversed once and one float was drawn. *)
Theorem C1_walk_steps :
  (forall fuel g s node g' s',
      traverseFrom fuel g s node = Done (g', s') -> spec_walk g s node g' s') /\
  (forall g s node g' s',
      spec_walk g s node g' s' ->
      exists fuel, forall fuel', (fuel <= fuel')%nat ->
        traverseFrom fuel' g s node = Done (g', s')) /\
  (forall fuel g s node,
      edgesFor g node = [] ->
      traverseFrom (S fuel) g s node
      = Done (set_randomSource (snd (Float32 (randomSource g))) g,
              <[node := Traverse (s node)]> s)).
Proof.
  split; [|split].
  - intros fuel g s node g' s'. apply traverseFrom_walk.
  - intros g s node g' s' Hw.
    destruct (walk_traverseFrom _ _ _ _ _ Hw) as [fuel E].
    exists fuel. intros fuel' Hle.
    eapply traverseFrom_fuel_mono; eassumption.
  - intros fuel g s node. apply traverseFrom_dead_end.
Qed.

(** *** The pass of [Calculate] *)

Lemma run_walks_app fuel (l1 l2 : list loc) : forall g s,
  run_walks fuel (l1 ++ l2) g s
  = '(g, s) ← run_walks fuel l1 g s; run_walks fuel l2 g s.
Proof.
  induction l1 as [|n l1 IH]; intros g s; simpl; [reflexivity|].
  destruct (traverseFrom fuel g s n) as [[g1 s1]| |]; simpl;
    [apply IH | reflexivity | reflexivity].
Qed.

Lemma run_rounds_walks fuel (k : nat) node : forall g s,
  run_rounds fuel k node g s = run_walks fuel (replicate k node) g s.
Proof.
  induction k as [|k IH]; intros g s; simpl; [reflexivity|].
  destruct (traverseFrom fuel g s node) as [[g1 s1]| |]; simpl;
    [apply IH | reflexivity | reflexivity].
Qed.

Lemma run_walks_same_but_random fuel (starts : list loc) : forall g s g' s',
  run_walks fuel starts g s = Done (g', s') -> same_but_random g g'.
Proof.
  induction starts as [|n starts IH]; intros g s g' s' E; simpl in E.
  - injection E as <- _. apply same_but_random_refl.
  - apply bind_Done in E as [[g1 s1] [E1 E2]].
    eapply same_but_random_trans;
      [eapply traverseFrom_same_but_random | eapply IH]; eassumption.
Qed.

Lemma spec_origins_ext (s1 s2 : Store) (r : Z) (ns : list loc) :
  (forall l, IsStarter (s1 l) = IsStarter (s2 l)) ->
  spec_origins s1 r ns = spec_origins s2 r ns.
Proof.
  intros Hs. unfold spec_origins.
  induction ns as [|n ns IH]; simpl; [reflexivity|].
  rewrite Hs, IH. reflexivity.
Qed.

Lemma walks_from_app node (l1 l2 : list loc) :
  walks_from node (l1 ++ l2) = (walks_from node l1 + walks_from node l2)%nat.
Proof. unfold walks_from. rewrite filter_app, length_app. reflexivity. Qed.

Lemma walks_from_replicate node (k : nat) (n : loc) :
  walks_from node (replicate k n) = if decide (n = node) then k else 0%nat.
Proof.
  unfold walks_from.
  induction k as [|k IH]; simpl.
  - destruct (decide (n = node)); reflexivity.
  - rewrite filter_cons. destruct (decide (n = node)); simpl; lia.
Qed.

Lemma walks_from_cons node (n : loc) (ns : list loc) :
  walks_from node (n :: ns)
  = ((if decide (n = node) then 1 else 0) + walks_from node ns)%nat.
Proof.
  unfold walks_from. rewrite filter_cons.
  destruct (decide (n = node)); reflexivity.
Qed.

Lemma walks_from_spec_origins (s : Store) (r : Z) node (ns : list loc) :
  walks_from node (spec_origins s r ns)
  = if IsStarter (s node) then (Z.to_nat r * walks_from node ns)%nat
    else 0%nat.
Proof.
  induction ns as [|n ns IH].
  - simpl. destruct (IsStarter (s node)); unfold walks_from; simpl; lia.
  - unfold spec_origins in *. simpl flat_map.
    rewrite walks_from_app, IH, walks_from_cons.
    destruct (decide (n = node)) as [->|Hne].
    + destruct (IsStarter (s node)).
      * rewrite walks_from_replicate.
        destruct (decide (node = node)); [lia | contradiction].
      * unfold walks_from. reflexivity.
    + destruct (IsStarter (s n)).
      * rewrite walks_from_replicate.
        destruct (decide (n = node)); [contradiction|].
        destruct (IsStarter (s node)); lia.
      * destruct (IsStarter (s node)); unfold walks_from; simpl; lia.
Qed.

Lemma walks_from_absent node (ns : list loc) :
  node ∉ ns -> walks_from node ns = 0%nat.
Proof.
  induction ns as [|n ns IH]; intros Hnot; [reflexivity|].
  rewrite walks_from_cons.
  apply not_elem_of_cons in Hnot as [Hne Hnot].
  destruct (decide (n = node)) as [->|_]; [contradiction|].
  rewrite IH by exact Hnot. reflexivity.
Qed.

Lemma walks_from_NoDup node (ns : list loc) :
  NoDup ns -> node ∈ ns -> walks_from node ns = 1%nat.
Proof.
  induction 1 as [|n ns Hnot Hnd IH]; intros Hin.
  - inversion Hin.
  - rewrite walks_from_cons.
    destruct (decide (n = node)) as [->|Hne].
    + rewrite walks_from_absent by exact Hnot. reflexivity.
    + apply elem_of_cons in Hin as [->|Hin]; [contradiction|].
      rewrite IH by exact Hin. reflexivity.
Qed.

Section WithNodeContract.

Context `{!NodeContract N}.

Lemma traverseFrom_IsStarter fuel : forall g s node g' s',
  traverseFrom fuel g s node = Done (g', s') ->
  forall l, IsStarter (s' l) = IsStarter (s l).
Proof.
  assert (Hstep : forall s node l,
             IsStarter ((<[node := Traverse (s node)]> s) l) = IsStarter (s l)).
  { intros s node l. unfold insert, fn_insert.
    destruct (decide (node = l)) as [->|]; [apply IsStarter_Traverse|reflexivity]. }
  induction fuel as [|fuel IH]; intros g s node g' s' E l; [discriminate|].
  simpl in E.
  destruct (Float32 (randomSource g)) as [x r].
  destruct (ltb x (jumpProbability g)).
  { injection E as _ <-. apply Hstep. }
  destruct (Z.of_nat (length (edgesFor g node)) <? 1).
  { injection E as _ <-. apply Hstep. }
  destruct (Intn _ r) as [k r'].
  destruct (k <? 0); [discriminate|].
  destruct (edgesFor g node !! Z.to_nat k) as [next|]; [|discriminate].
  rewrite (IH _ _ _ _ _ E l). apply Hstep.
Qed.

Lemma run_walks_IsStarter fuel (starts : list loc) : forall g s g' s',
  run_walks fuel starts g s = Done (g', s') ->
  forall l, IsStarter (s' l) = IsStarter (s l).
Proof.
  induction starts as [|n starts IH]; intros g s g' s' E l; simpl in E.
  - injection E as _ <-. reflexivity.
  - apply bind_Done in E as [[g1 s1] [E1 E2]].
    rewrite (IH _ _ _ _ E2 l). eapply traverseFrom_IsStarter; eassumption.
Qed.

Lemma range_nodes_walks fuel (r : Z) (ns : list loc) : forall g s,
  range_nodes fuel r ns g s = run_walks fuel (spec_origins s r ns) g s.
Proof.
  induction ns as [|n ns IH]; intros g s; [reflexivity|].
  unfold spec_origins. simpl.
  destruct (IsStarter (s n)) eqn:Es; simpl.
  - rewrite run_walks_app, run_rounds_walks.
    destruct (run_walks fuel (replicate (Z.to_nat r) n) g s)
      as [[g1 s1]| |] eqn:E1; simpl; [|reflexivity|reflexivity].
    rewrite IH. f_equal. apply spec_origins_ext.
    eapply run_walks_IsStarter; eassumption.
  - apply IH.
Qed.

(** C2. [Calculate(jumpProbability, roundsPerNode)] goes through the node
    collection in collection order; it starts no walk at a node whose
    [IsStarter()] is false and exactly [roundsPerNode] walks at each entry
    of the collection whose [IsStarter()] is true (for node implementations
    that keep their starter flag when traversed): [roundsPerNode] walks in
    all at a starter that the collection lists once. A node that is not a
    starter is still traversed when a walk reaches it: on the graph A -> B
    where only [A] starts walks, one round with jump probability 0 visits
    [A] and then [B]. The walks themselves
    never write the [calculated] flag: it is set to true once, after the
    last walk of the last starter has returned. *)
Theorem C2_calculate_pass fuel g s (JumpProbability : float32)
    (RoundsPerNode : Z) :
  Calculate fuel g s JumpProbability RoundsPerNode
  = ('(g1, s1) ← run_walks fuel (spec_origins s RoundsPerNode (nodes g))
                    (set_jumpProbability JumpProbability g) s;
     Done (set_calculated true g1, s1)) /\
  (forall starts g0 s0 g1 s1,
      run_walks fuel starts g0 s0 = Done (g1, s1) ->
      calculated g1 = calculated g0) /\
  (forall node,
      IsStarter (s node) = false ->
      walks_from node (spec_origins s RoundsPerNode (nodes g)) = 0%nat) /\
  (forall node,
      IsStarter (s node) = true ->
      walks_from node (spec_origins s RoundsPerNode (nodes g))
      = (Z.to_nat RoundsPerNode * walks_from node (nodes g))%nat) /\
  (forall node,
      IsStarter (s node) = true ->
      NoDup (nodes g) -> node ∈ nodes g -> 0 <= RoundsPerNode ->
      Z.of_nat (walks_from node (spec_origins s RoundsPerNode (nodes g)))
      = RoundsPerNode) /\
  match Calculate 3 example.hop_graph example.only_a_starts zero 1 with
  | Done (_, s') =>
      IsStarter (example.only_a_starts example.B) = false /\
      Traversals (s' example.A) = 1 /\ Traversals (s' example.B) = 1
  | _ => False
  end.
Proof.
  split; [|split; [|split; [|split; [|split]]]].
  - unfold Calculate. rewrite range_nodes_walks. reflexivity.
  - intros starts g0 s0 g1 s1 E.
    apply run_walks_same_but_random in E. apply E.
  - intros node Hs. rewrite walks_from_spec_origins, Hs. reflexivity.
  - intros node Hs. rewrite walks_from_spec_origins, Hs. reflexivity.
  - intros node Hs Hnd Hin Hr.
    rewrite walks_from_spec_origins, Hs, walks_from_NoDup by assumption. lia.
  - vm_compute. repeat split.
Qed.

End WithNodeContract.

(** *** The score accessor *)

Lemma Pagerank_not_calculated g s node (normalized : bool) :
  calculated g = false ->
  Pagerank g s node normalized = (g, (zero, Some not_calculated)).
Proof. intros E. unfold Pagerank. rewrite E. reflexivity. Qed.

Lemma Pagerank_calculated g s node (normalized : bool) :
  calculated g = true ->
  Pagerank g s node normalized
  = (with_total g s,
     (score g s node normalized (traversals (with_total g s)), None)).
Proof.
  intros E. unfold Pagerank, with_total, score. rewrite E. simpl.
  destruct (summed g), normalized; reflexivity.
Qed.

Lemma sum_traversals_total (s : Store) (ns : list loc) : forall acc,
  0 <= acc < uint64_modulus ->
  sum_traversals s ns acc = (acc + total_traversals s ns) mod uint64_modulus.
Proof.
  induction ns as [|n ns IH]; intros acc Hacc; simpl.
  - rewrite Z.add_0_r. symmetry. apply Z.mod_small. exact Hacc.
  - unfold sum_traversals in *. rewrite IH.
    + unfold uint64_add. rewrite Zplus_mod_idemp_l. f_equal. lia.
    + unfold uint64_add. apply Z.mod_pos_bound. reflexivity.
Qed.

Lemma sum_traversals_zero (s : Store) (ns : list loc) :
  total_traversals s ns = 0 -> sum_traversals s ns 0 = 0.
Proof.
  intros E. rewrite sum_traversals_total by (unfold uint64_modulus; lia).
  rewrite E. reflexivity.
Qed.

Lemma Pagerank_fresh_total g s node (normalized : bool) :
  calculated g = true -> summed g = false -> traversals g = 0 ->
  snd (Pagerank g s node normalized)
  = (score g s node normalized
       (total_traversals s (nodes g) mod uint64_modulus), None).
Proof.
  intros Hc Hs Ht. rewrite Pagerank_calculated by exact Hc. simpl.
  unfold with_total. rewrite Hs. simpl. rewrite Ht.
  rewrite sum_traversals_total by (unfold uint64_modulus; lia).
  reflexivity.
Qed.

(** C3 (as amended). On a graph whose [calculated] flag is true,
    [Pagerank(node, true)] returns [node.Traversals()] divided by the total
    held in [g.traversals], and [Pagerank(node, false)] the node count
    times [node.Traversals()] divided by that total, each computed in
    [float64], converted to [float32] and returned with a nil error. On a
    graph that has not been queried before, that total is the [uint64] sum
    of [Traversals()] over all nodes of the collection; once [summed] is
    true it is the total cached by the first query. *)
Theorem C3_pagerank_value g s node :
  calculated g = true ->
  (summed g = false -> traversals g = 0) ->
  let total := if summed g then traversals g
               else total_traversals s (nodes g) mod uint64_modulus in
  snd (Pagerank g s node true)
  = (float32_of_float64
       (div64 (float64_of_int (Traversals (s node))) (float64_of_int total)),
     None) /\
  snd (Pagerank g s node false)
  = (float32_of_float64
       (div64 (mul64 (float64_of_int (Z.of_nat (length (nodes g))))
                     (float64_of_int (Traversals (s node))))
              (float64_of_int total)),
     None).
Proof.
  intros Hc Hfresh total.
  assert (Et : traversals (with_total g s) = total).
  { unfold with_total, total. destruct (summed g); simpl; [reflexivity|].
    rewrite Hfresh by reflexivity.
    rewrite sum_traversals_total by (unfold uint64_modulus; lia).
    reflexivity. }
  rewrite !Pagerank_calculated by exact Hc. simpl. rewrite Et.
  split; reflexivity.
Qed.

(** C4. While the [calculated] flag is false, [Pagerank] returns the
    "not yet calculated" error, for both values of [normalized]; this is
    the state of every graph returned by [NewGraph]. *)
Theorem C4_not_calculated_error :
  (forall g s node (normalized : bool),
      calculated g = false ->
      snd (snd (Pagerank g s node normalized)) = Some not_calculated) /\
  (forall (seed : Z) (edges : loc -> list loc) (ns : list loc) s node
          (normalized : bool),
      snd (snd (Pagerank (NewGraph seed edges ns) s node normalized))
      = Some not_calculated).
Proof.
  split.
  - intros g s node normalized E.
    rewrite Pagerank_not_calculated by exact E. reflexivity.
  - intros seed edges ns s node normalized.
    rewrite Pagerank_not_calculated by reflexivity. reflexivity.
Qed.

(** C10. Called while the [calculated] flag is false, [Pagerank] returns
    the value 0 with the error and changes nothing: the graph (with its
    [summed] flag, cached total and [calculated] flag) and the store of
    node objects are the ones before the call. *)
Theorem C10_error_path_atomic fuel g s node (normalized : bool) :
  calculated g = false ->
  Pagerank g s node normalized = (g, (zero, Some not_calculated)) /\
  run_call fuel (CallPagerank node normalized) g s = Done (g, s).
Proof.
  intros E. split.
  - apply Pagerank_not_calculated. exact E.
  - simpl. rewrite Pagerank_not_calculated by exact E. reflexivity.
Qed.

Lemma nan_of_zero_total (x : float64) :
  float32_of_float64 (div64 (mul64 x (float64_of_int 0)) (float64_of_int 0))
  = S754_nan.
Proof. destruct x as [[]|[]| |[] m e]; reflexivity. Qed.

Lemma range_nodes_no_rounds fuel (r : Z) (ns : list loc) g s :
  r <= 0 -> range_nodes fuel r ns g s = Done (g, s).
Proof.
  intros Hr. induction ns as [|n ns IH]; simpl; [reflexivity|].
  replace (Z.to_nat r) with 0%nat by lia. simpl.
  destruct (negb (IsStarter (s n))); exact IH.
Qed.

Lemma range_nodes_no_starter fuel (r : Z) (ns : list loc) g s :
  (forall n, n ∈ ns -> IsStarter (s n) = false) ->
  range_nodes fuel r ns g s = Done (g, s).
Proof.
  induction ns as [|n ns IH]; intros Hns; simpl; [reflexivity|].
  rewrite Hns by left. simpl. apply IH.
  intros m Hm. apply Hns. right. exact Hm.
Qed.

(** C5. On a graph whose [calculated] flag is true while the total
    traversal count over all nodes is zero (and so is the graph's cached
    total), [Pagerank] has no error for the situation: it divides by the
    [float64] zero and returns the result with a nil error, the graph's
    total staying zero; for a node whose own count is zero the value is a
    NaN, normalized or not. This is the state reached from [NewGraph], over
    nodes without traversals, by a [Calculate] with no round or with no
    starter node. *)
Theorem C5_zero_total_unguarded :
  (forall g s node (normalized : bool),
      calculated g = true ->
      traversals g = 0 ->
      total_traversals s (nodes g) = 0 ->
      traversals (fst (Pagerank g s node normalized)) = 0 /\
      float64_of_int 0 = S754_zero false /\
      snd (Pagerank g s node normalized) = (score g s node normalized 0, None) /\
      (Traversals (s node) = 0 ->
       snd (Pagerank g s node normalized) = (S754_nan, None))) /\
  (forall (seed : Z) (edges : loc -> list loc) (ns : list loc) s fuel
          (JumpProbability : float32) (RoundsPerNode : Z) node
          (normalized : bool),
      total_traversals s ns = 0 ->
      RoundsPerNode <= 0 \/ (forall n, n ∈ ns -> IsStarter (s n) = false) ->
      exists g',
        Calculate fuel (NewGraph seed edges ns) s JumpProbability RoundsPerNode
        = Done (g', s) /\
        snd (Pagerank g' s node normalized)
        = (score g' s node normalized 0, None)).
Proof.
  assert (Hzero : forall g s node (normalized : bool),
             calculated g = true -> traversals g = 0 ->
             total_traversals s (nodes g) = 0 ->
             Pagerank g s node normalized
             = (with_total g s, (score g s node normalized 0, None)) /\
             traversals (with_total g s) = 0).
  { intros g s node normalized Hc Ht Hz.
    assert (Et : traversals (with_total g s) = 0).
    { unfold with_total. destruct (summed g); simpl; [exact Ht|].
      rewrite Ht. apply sum_traversals_zero. exact Hz. }
    rewrite Pagerank_calculated by exact Hc. rewrite Et.
    split; reflexivity. }
  split.
  - intros g s node normalized Hc Ht Hz.
    destruct (Hzero g s node normalized Hc Ht Hz) as [-> Et]. simpl.
    repeat split; [exact Et|].
    intros Hn. unfold score. rewrite Hn.
    destruct normalized; [reflexivity|].
    rewrite nan_of_zero_total. reflexivity.
  - intros seed edges ns s fuel jp r node normalized Hz Hwhy.
    exists (set_calculated true
              (set_jumpProbability jp (NewGraph seed edges ns))).
    split.
    + unfold Calculate.
      destruct Hwhy as [Hr|Hns].
      * rewrite range_nodes_no_rounds by exact Hr. reflexivity.
      * rewrite range_nodes_no_starter by exact Hns. reflexivity.
    + destruct (Hzero (set_calculated true
                         (set_jumpProbability jp (NewGraph seed edges ns)))
                      s node normalized eq_refl eq_refl Hz) as [-> _].
      reflexivity.
Qed.

(** *** What [Calculate] writes *)

Lemma run_rounds_same_but_random fuel (k : nat) node g s g' s' :
  run_rounds fuel k node g s = Done (g', s') -> same_but_random g g'.
Proof. rewrite run_rounds_walks. apply run_walks_same_but_random. Qed.

Lemma range_nodes_same_but_random fuel (r : Z) (ns : list loc) :
  forall g s g' s',
  range_nodes fuel r ns g s = Done (g', s') -> same_but_random g g'.
Proof.
  induction ns as [|n ns IH]; intros g s g' s' E; simpl in E.
  - injection E as <- _. apply same_but_random_refl.
  - destruct (negb (IsStarter (s n))); [eapply IH; eassumption|].
    apply bind_Done in E as [[g1 s1] [E1 E2]].
    eapply same_but_random_trans;
      [eapply run_rounds_same_but_random | eapply IH]; eassumption.
Qed.

Lemma Calculate_frame fuel g s (jp : float32) (r : Z) g' s' :
  Calculate fuel g s jp r = Done (g', s') ->
  nodes g' = nodes g /\ edgesFor g' = edgesFor g /\
  traversals g' = traversals g /\ summed g' = summed g /\
  jumpProbability g' = jp /\ calculated g' = true.
Proof.
  unfold Calculate. intros E.
  apply bind_Done in E as [[g1 s1] [E1 E2]].
  injection E2 as <- _.
  apply range_nodes_same_but_random in E1.
  destruct E1 as (?&?&?&?&?&?). simpl. repeat split; assumption.
Qed.

Lemma Pagerank_summed g s node (normalized : bool) :
  summed g = true -> fst (Pagerank g s node normalized) = g.
Proof.
  intros E. unfold Pagerank.
  destruct (calculated g); simpl; [|reflexivity].
  rewrite E. simpl. destruct normalized; reflexivity.
Qed.

Lemma Pagerank_first g s node (normalized : bool) :
  calculated g = true -> summed g = false ->
  summed (fst (Pagerank g s node normalized)) = true /\
  traversals (fst (Pagerank g s node normalized))
  = sum_traversals s (nodes g) (traversals g).
Proof.
  intros Hc Hs. rewrite Pagerank_calculated by exact Hc.
  unfold with_total. rewrite Hs. simpl. split; reflexivity.
Qed.

Lemma run_call_cache_fresh fuel (c : call) g s g' s' :
  (summed g = false -> traversals g = 0) ->
  run_call fuel c g s = Done (g', s') ->
  summed g' = false -> traversals g' = 0.
Proof.
  intros Hinv E Hs'. destruct c as [jp r|node normalized]; simpl in E.
  - apply Calculate_frame in E as (_&_&Ht&Hs&_&_).
    rewrite Ht. apply Hinv. congruence.
  - injection E as <- _.
    destruct (calculated g) eqn:Hc.
    + destruct (summed g) eqn:Hs.
      * rewrite Pagerank_summed in Hs' by exact Hs. congruence.
      * destruct (Pagerank_first g s node normalized Hc Hs) as [Hs1 _].
        congruence.
    + rewrite Pagerank_not_calculated in Hs' |- * by exact Hc.
      apply Hinv. exact Hs'.
Qed.

Lemma run_call_cache_kept fuel (c : call) g s g' s' :
  summed g = true ->
  run_call fuel c g s = Done (g', s') ->
  summed g' = true /\ traversals g' = traversals g.
Proof.
  intros Hs E. destruct c as [jp r|node normalized]; simpl in E.
  - apply Calculate_frame in E as (_&_&Ht&Hs'&_&_).
    split; congruence.
  - injection E as <- _. rewrite Pagerank_summed by exact Hs.
    split; [exact Hs | reflexivity].
Qed.

(** C6. The first successful [Pagerank] call sets [summed] and stores in
    [traversals] the ([uint64]) sum of [Traversals()] over all nodes at
    that moment (until then [summed] is false and the field is zero, on
    every graph obtained from [NewGraph] by calls of [Calculate] and
    [Pagerank]). From then on, whatever further [Pagerank] and [Calculate]
    calls are made on the graph, [summed] stays true and the stored total
    keeps its value; a [Calculate] call changes neither field. *)
Theorem C6_total_cached_once :
  (forall g s node (normalized : bool),
      calculated g = true -> summed g = false -> traversals g = 0 ->
      summed (fst (Pagerank g s node normalized)) = true /\
      traversals (fst (Pagerank g s node normalized))
      = total_traversals s (nodes g) mod uint64_modulus) /\
  (forall (seed : Z) (edges : loc -> list loc) (ns : list loc) fuel
          (cs : list call) s0 g s,
      run_calls fuel cs (NewGraph seed edges ns) s0 = Done (g, s) ->
      summed g = false -> traversals g = 0) /\
  (forall fuel (cs : list call) g s g' s',
      summed g = true ->
      run_calls fuel cs g s = Done (g', s') ->
      summed g' = true /\ traversals g' = traversals g) /\
  (forall fuel g s (JumpProbability : float32) (RoundsPerNode : Z) g' s',
      Calculate fuel g s JumpProbability RoundsPerNode = Done (g', s') ->
      summed g' = summed g /\ traversals g' = traversals g).
Proof.
  split; [|split; [|split]].
  - intros g s node normalized Hc Hs Ht.
    destruct (Pagerank_first g s node normalized Hc Hs) as [E1 E2].
    split; [exact E1|]. rewrite E2, Ht.
    apply sum_traversals_total. unfold uint64_modulus. lia.
  - intros seed edges ns fuel cs s0.
    assert (Hgen : forall g0 s0 g s,
               (summed g0 = false -> traversals g0 = 0) ->
               run_calls fuel cs g0 s0 = Done (g, s) ->
               summed g = false -> traversals g = 0).
    { induction cs as [|c cs IH]; intros g0 s1 g s Hinv E; simpl in E.
      - injection E as <- _. exact Hinv.
      - apply bind_Done in E as [[g1 s2] [E1 E2]].
        eapply IH; [|exact E2].
        eapply run_call_cache_fresh; eassumption. }
    intros g s. apply Hgen. reflexivity.
  - intros fuel cs. induction cs as [|c cs IH]; intros g s g' s' Hs E;
      simpl in E.
    + injection E as <- _. split; [exact Hs | reflexivity].
    + apply bind_Done in E as [[g1 s1] [E1 E2]].
      destruct (run_call_cache_kept _ _ _ _ _ _ Hs E1) as [Hs1 Ht1].
      destruct (IH _ _ _ _ Hs1 E2) as [Hs2 Ht2].
      split; congruence.
  - intros fuel g s jp r g' s' E.
    apply Calculate_frame in E as (_&_&Ht&Hs&_&_). split; assumption.
Qed.

(** C9. With [RoundsPerNode <= 0], [Calculate] starts no walk: it returns
    (whatever the budget, nothing is checked and nothing panics) with every
    node object and the random source untouched, and still sets
    [calculated]. [Pagerank] then answers with a nil error; on a graph
    with no recorded traversal it divides by a zero total. *)
Theorem C9_nonpositive_rounds fuel g s (JumpProbability : float32)
    (RoundsPerNode : Z) :
  RoundsPerNode <= 0 ->
  let g' := set_calculated true (set_jumpProbability JumpProbability g) in
  Calculate fuel g s JumpProbability RoundsPerNode = Done (g', s) /\
  calculated g' = true /\ randomSource g' = randomSource g /\
  (forall node (normalized : bool),
      snd (snd (Pagerank g' s node normalized)) = None) /\
  (traversals g = 0 ->
   total_traversals s (nodes g) = 0 ->
   forall node (normalized : bool),
     traversals (fst (Pagerank g' s node normalized)) = 0 /\
     fst (snd (Pagerank g' s node normalized)) = score g s node normalized 0).
Proof.
  intros Hr g'. split; [|split; [|split; [|split]]].
  - unfold Calculate. rewrite range_nodes_no_rounds by exact Hr. reflexivity.
  - reflexivity.
  - reflexivity.
  - intros node normalized.
    rewrite Pagerank_calculated by reflexivity. reflexivity.
  - intros Ht Hz node normalized.
    assert (Et : traversals (with_total g' s) = 0).
    { unfold with_total. destruct (summed g'); simpl; [exact Ht|].
      rewrite Ht. apply sum_traversals_zero. exact Hz. }
    rewrite Pagerank_calculated by reflexivity. simpl. rewrite Et.
    split; reflexivity.
Qed.

(** *** Budget independence of a whole pass *)

Lemma run_rounds_fuel_mono fuel fuel' (k : nat) node : forall g s res,
  (fuel <= fuel')%nat ->
  run_rounds fuel k node g s = Done res ->
  run_rounds fuel' k node g s = Done res.
Proof.
  induction k as [|k IH]; intros g s res Hle E; simpl in E |- *; [exact E|].
  apply bind_Done in E as [[g1 s1] [E1 E2]].
  rewrite (traverseFrom_fuel_mono _ _ _ _ _ _ Hle E1). simpl.
  apply IH; assumption.
Qed.

Lemma range_nodes_fuel_mono fuel fuel' (r : Z) (ns : list loc) :
  forall g s res,
  (fuel <= fuel')%nat ->
  range_nodes fuel r ns g s = Done res ->
  range_nodes fuel' r ns g s = Done res.
Proof.
  induction ns as [|n ns IH]; intros g s res Hle E; simpl in E |- *;
    [exact E|].
  destruct (negb (IsStarter (s n))); [apply IH; assumption|].
  apply bind_Done in E as [[g1 s1] [E1 E2]].
  rewrite (run_rounds_fuel_mono _ _ _ _ _ _ _ Hle E1). simpl.
  apply IH; assumption.
Qed.

Lemma Calculate_fuel_mono fuel fuel' g s (jp : float32) (r : Z) res :
  (fuel <= fuel')%nat ->
  Calculate fuel g s jp r = Done res ->
  Calculate fuel' g s jp r = Done res.
Proof.
  unfold Calculate. intros Hle E.
  apply bind_Done in E as [[g1 s1] [E1 E2]].
  rewrite (range_nodes_fuel_mono _ _ _ _ _ _ _ Hle E1). exact E2.
Qed.

Section Determinism.

Context `{!NodeContract N}.

Lemma same_counts_traverse (s1 s2 : Store) node :
  same_counts s1 s2 ->
  same_counts (<[node := Traverse (s1 node)]> s1)
              (<[node := Traverse (s2 node)]> s2).
Proof.
  intros Hs l. unfold insert, fn_insert.
  destruct (decide (node = l)) as [_|_]; [|apply Hs].
  rewrite !Traversals_Traverse, !IsStarter_Traverse.
  destruct (Hs node) as [-> ->]. split; reflexivity.
Qed.

Lemma same_outcome_bind (o1 o2 : outcome (Graph * Store))
    (k1 k2 : Graph * Store -> outcome (Graph * Store)) :
  same_outcome o1 o2 ->
  (forall g s1 s2, same_counts s1 s2 -> same_outcome (k1 (g, s1)) (k2 (g, s2))) ->
  same_outcome (o1 ≫= k1) (o2 ≫= k2).
Proof.
  destruct o1 as [[g1 s1]| |], o2 as [[g2 s2]| |]; simpl;
    try contradiction; try (intros; exact I).
  intros [-> Hs] Hk. apply Hk. exact Hs.
Qed.

Lemma traverseFrom_same_counts fuel : forall g (s1 s2 : Store) node,
  same_counts s1 s2 ->
  same_outcome (traverseFrom fuel g s1 node) (traverseFrom fuel g s2 node).
Proof.
  induction fuel as [|fuel IH]; intros g s1 s2 node Hs; simpl; [exact I|].
  pose proof (same_counts_traverse s1 s2 node Hs) as Hs'.
  destruct (Float32 (randomSource g)) as [x r].
  destruct (ltb x (jumpProbability g)); simpl; [split; [reflexivity|exact Hs']|].
  destruct (Z.of_nat (length (edgesFor g node)) <? 1); simpl;
    [split; [reflexivity|exact Hs']|].
  destruct (Intn _ r) as [k r'].
  destruct (k <? 0); [exact I|].
  destruct (edgesFor g node !! Z.to_nat k) as [next|]; [|exact I].
  apply IH. exact Hs'.
Qed.

Lemma run_rounds_same_counts fuel (k : nat) node : forall g (s1 s2 : Store),
  same_counts s1 s2 ->
  same_outcome (run_rounds fuel k node g s1) (run_rounds fuel k node g s2).
Proof.
  induction k as [|k IH]; intros g s1 s2 Hs; simpl.
  - split; [reflexivity | exact Hs].
  - apply same_outcome_bind; [apply traverseFrom_same_counts; exact Hs|].
    intros g' s1' s2' Hs'. apply IH. exact Hs'.
Qed.

Lemma range_nodes_same_counts fuel (r : Z) (ns : list loc) :
  forall g (s1 s2 : Store),
  same_counts s1 s2 ->
  same_outcome (range_nodes fuel r ns g s1) (range_nodes fuel r ns g s2).
Proof.
  induction ns as [|n ns IH]; intros g s1 s2 Hs; simpl.
  - split; [reflexivity | exact Hs].
  - destruct (Hs n) as [_ ->].
    destruct (negb (IsStarter (s2 n))); [apply IH; exact Hs|].
    apply same_outcome_bind; [apply run_rounds_same_counts; exact Hs|].
    intros g' s1' s2' Hs'. apply IH. exact Hs'.
Qed.

Lemma Calculate_same_counts fuel g (s1 s2 : Store) (jp : float32) (r : Z) :
  same_counts s1 s2 ->
  same_outcome (Calculate fuel g s1 jp r) (Calculate fuel g s2 jp r).
Proof.
  intros Hs. unfold Calculate.
  apply same_outcome_bind; [apply range_nodes_same_counts; exact Hs|].
  intros g' s1' s2' Hs'. simpl. split; [reflexivity | exact Hs'].
Qed.

(** C8. Two Graph instances built by [NewGraph] from the same seed, the
    same node collection and the same edge resolver, over node objects with
    the same counters and starter flags, and given the same arguments of
    [Calculate], behave alike: with the same budget both runs end the same
    way, and whenever both return (with any budgets) they leave equal graph
    states and the same traversal count in every corresponding node. *)
Theorem C8_determinism (seed : Z) (edges : loc -> list loc) (ns : list loc)
    (JumpProbability : float32) (RoundsPerNode : Z) (s1 s2 : Store) :
  same_counts s1 s2 ->
  (forall fuel,
      same_outcome
        (Calculate fuel (NewGraph seed edges ns) s1 JumpProbability RoundsPerNode)
        (Calculate fuel (NewGraph seed edges ns) s2 JumpProbability RoundsPerNode)) /\
  (forall fuel1 fuel2 g1 s1' g2 s2',
      Calculate fuel1 (NewGraph seed edges ns) s1 JumpProbability RoundsPerNode
      = Done (g1, s1') ->
      Calculate fuel2 (NewGraph seed edges ns) s2 JumpProbability RoundsPerNode
      = Done (g2, s2') ->
      g1 = g2 /\ forall l, Traversals (s1' l) = Traversals (s2' l)).
Proof.
  intros Hs. split.
  - intros fuel. apply Calculate_same_counts. exact Hs.
  - intros fuel1 fuel2 g1 s1' g2 s2' E1 E2.
    pose proof (Calculate_same_counts (Nat.max fuel1 fuel2)
                  (NewGraph seed edges ns) s1 s2
                  JumpProbability RoundsPerNode Hs) as Hsame.
    rewrite (Calculate_fuel_mono fuel1 (Nat.max fuel1 fuel2) _ _ _ _ _
               (Nat.le_max_l _ _) E1) in Hsame.
    rewrite (Calculate_fuel_mono fuel2 (Nat.max fuel1 fuel2) _ _ _ _ _
               (Nat.le_max_r _ _) E2) in Hsame.
    destruct Hsame as [Hg Hc]. split; [exact Hg|].
    intros l. apply Hc.
Qed.

End Determinism.

(** *** Walks that always jump *)

Section AlwaysJump.

Context `{!RandContract R}.

Lemma traverseFrom_jump_one fuel g s node :
  jumpProbability g = one32 ->
  traverseFrom (S fuel) g s node
  = Done (set_randomSource (snd (Float32 (randomSource g))) g,
          <[node := Traverse (s node)]> s).
Proof.
  intros Hjp. simpl.
  pose proof (Float32_range (randomSource g)) as [_ Hlt].
  destruct (Float32 (randomSource g)) as [x r]. simpl in *.
  rewrite Hjp, Hlt. reflexivity.
Qed.

Lemma run_walks_jump_one fuel (starts : list loc) : forall g s,
  jumpProbability g = one32 ->
  exists g' s',
    run_walks (S fuel) starts g s = Done (g', s') /\
    same_but_random g g' /\
    forall l, s' l = Nat.iter (walks_from l starts) Traverse (s l).
Proof.
  induction starts as [|n starts IH]; intros g s Hjp.
  - exists g, s. repeat split.
  - cbn [run_walks]. rewrite traverseFrom_jump_one by exact Hjp.
    destruct (IH (set_randomSource (snd (Float32 (randomSource g))) g)
                 (<[n := Traverse (s n)]> s) Hjp) as (g' & s' & E & Hg & Hs').
    exists g', s'. split; [exact E|]. split.
    { eapply same_but_random_trans; [apply same_but_random_set | exact Hg]. }
    intros l. rewrite Hs', walks_from_cons.
    unfold insert, fn_insert.
    destruct (decide (n = l)) as [->|_]; simpl; [|reflexivity].
    symmetry. apply (Nat.iter_succ_r (walks_from l starts) Traverse).
Qed.

End AlwaysJump.

End EngineFacts.

(** ** The implementations meet their contracts *)

#[export] Instance Base_NodeContract : NodeContract base.Base.
Proof. split; intros b; reflexivity. Qed.

#[export] Instance counter_RandContract : RandContract script.counter.
Proof.
  split.
  - intros [p].
    change (leb zero (script.table (p mod 4)%nat) = true /\
            ltb (script.table (p mod 4)%nat) one32 = true).
    destruct (p mod 4)%nat as [|[|[|q]]]; split; reflexivity.
  - intros n [p] Hn. simpl. apply Z.mod_pos_bound. exact Hn.
Qed.

(** ** The scenarios *)

Import example.

(** C7. On the cycle A -> B -> C -> A with three fresh starter nodes,
    [Calculate(1.0, 10)] returns, for every seed and every generator that
    keeps the contract of [Float32], with exactly 10 traversals in each
    node: every draw is below 1.0, so every walk ends after its first step.
    [Pagerank(node, true)] then returns, for each node, the [float32]
    quotient of 1 by 3, that is 11184811 / 2^25. *)
Theorem C7_cycle_always_jump {R : Type} `{RandSource R} `{!RandContract R}
    (seed : Z) (fuel : nat) :
  exists (g' : Graph abc R) (s' : Store abc base.Base),
    Calculate (S fuel) (NewGraph seed cycle [A; B; C]) fresh one32 10
    = Done (g', s') /\
    (forall n, Traversals (s' n) = 10) /\
    (forall n, snd (Pagerank g' s' n true) = (third32, None)) /\
    div32 one32 three32 = third32.
Proof.
  unfold Calculate. rewrite range_nodes_walks.
  destruct (run_walks_jump_one fuel (spec_origins fresh 10 [A; B; C])
              (set_jumpProbability one32 (NewGraph seed cycle [A; B; C]))
              fresh eq_refl) as (g1 & s1 & E & Hg & Hs).
  simpl nodes. rewrite E. simpl.
  exists (set_calculated true g1), s1.
  assert (Hcount : forall n, Traversals (s1 n) = 10).
  { intros n. rewrite Hs. destruct n; reflexivity. }
  destruct Hg as (Hn & _ & Ht & _ & _ & Hsum). simpl in Hn, Ht, Hsum.
  split; [reflexivity|]. split; [exact Hcount|]. split; [|reflexivity].
  intros n. rewrite Pagerank_fresh_total by (simpl; first [reflexivity | assumption]).
  unfold score. simpl nodes. rewrite Hn. simpl total_traversals.
  rewrite !Hcount. reflexivity.
Qed.

(** The total cached by a query is stale after a second [Calculate]: on the
    lone starter [A] (no edges), after [Calculate(1.0, 1)], a query and
    [Calculate(1.0, 1)] again, the counter of [A] and the total over all
    nodes are both 2, but [Pagerank(A, true)] divides by the cached total 1
    and returns 2.0, not 2/2 = 1.0. *)
Lemma C3_counterexample_stale_total :
  match run_calls 2 calculate_twice lone_graph fresh with
  | Done (g, s) =>
      calculated g = true /\
      Traversals (s A) = 2 /\
      total_traversals s (nodes g) = 2 /\
      snd (Pagerank g s A true) = (two32, None) /\
      float32_of_float64
        (div64 (float64_of_int (Traversals (s A)))
               (float64_of_int (total_traversals s (nodes g)))) = one32 /\
      fst (snd (Pagerank g s A true))
      <> float32_of_float64
           (div64 (float64_of_int (Traversals (s A)))
                  (float64_of_int (total_traversals s (nodes g))))
  | _ => False
  end.
Proof.
  vm_compute. repeat split; intros E; discriminate E.
Qed.

(** ** The general statements on concrete inputs *)

Lemma C2_calculate_pass_witness :
  NodeContract base.Base /\
  Calculate 3 cycle_graph fresh one32 2
  = ('(g1, s1) ← run_walks 3 [A; A; B; B; C; C]
                    (set_jumpProbability one32 cycle_graph) fresh;
     Done (set_calculated true g1, s1)).
Proof.
  split; [exact Base_NodeContract|].
  exact (proj1 (C2_calculate_pass 3 cycle_graph fresh one32 2)).
Defined.

Lemma C3_pagerank_value_witness :
  calculated calculated_cycle = true /\
  (summed calculated_cycle = false -> traversals calculated_cycle = 0) /\
  snd (Pagerank calculated_cycle visited A true)
  = (S754_finite false 11184811 (-26), None) /\
  snd (Pagerank calculated_cycle visited A false) = (script.half32, None).
Proof.
  split; [reflexivity|]. split; [intros _; reflexivity|].
  exact (C3_pagerank_value calculated_cycle visited A
           eq_refl (fun _ => eq_refl)).
Defined.

Lemma C7_cycle_always_jump_witness :
  RandContract script.counter /\
  exists (g' : Graph abc script.counter) (s' : Store abc base.Base),
    Calculate 1 (NewGraph 31337 cycle [A; B; C]) fresh one32 10
    = Done (g', s') /\
    (forall n, Traversals (s' n) = 10) /\
    (forall n, snd (Pagerank g' s' n true) = (third32, None)) /\
    div32 one32 three32 = third32.
Proof.
  split; [exact counter_RandContract|].
  exact (C7_cycle_always_jump 31337 0).
Defined.

#[export] Instance nodeExample_NodeContract :
  NodeContract pagerank_test.nodeExample.
Proof. split; intros n; reflexivity. Qed.

Lemma same_counts_twins : same_counts twins.first_nodes twins.second_nodes.
Proof. intros l. split; reflexivity. Defined.

Lemma C8_determinism_witness :
  NodeContract pagerank_test.nodeExample /\
  same_counts twins.first_nodes twins.second_nodes /\
  pagerank_test.id (twins.first_nodes A)
  <> pagerank_test.id (twins.second_nodes A) /\
  exists (g1 g2 : Graph abc script.counter)
         (s1' s2' : Store abc pagerank_test.nodeExample),
    Calculate 3 (NewGraph 7 a_to_b [A; B]) twins.first_nodes zero 2
    = Done (g1, s1') /\
    Calculate 5 (NewGraph 7 a_to_b [A; B]) twins.second_nodes zero 2
    = Done (g2, s2') /\
    Traversals (s1' A) = 2 /\ Traversals (s1' B) = 4 /\
    pagerank_test.id (s1' A) <> pagerank_test.id (s2' A) /\
    g1 = g2 /\ forall l, Traversals (s1' l) = Traversals (s2' l).
Proof.
  split; [exact nodeExample_NodeContract|].
  split; [exact same_counts_twins|].
  split; [discriminate|].
  destruct (Calculate 3 (NewGraph 7 a_to_b [A; B]) twins.first_nodes zero 2)
    as [[g1 s1']| |] eqn:E1;
    [|vm_compute in E1; discriminate E1|vm_compute in E1; discriminate E1].
  destruct (Calculate 5 (NewGraph 7 a_to_b [A; B]) twins.second_nodes zero 2)
    as [[g2 s2']| |] eqn:E2;
    [|vm_compute in E2; discriminate E2|vm_compute in E2; discriminate E2].
  exists g1, g2, s1', s2'.
  split; [reflexivity|]. split; [reflexivity|].
  pose proof E1 as E1c. vm_compute in E1c. injection E1c as _ Hs1.
  pose proof E2 as E2c. vm_compute in E2c. injection E2c as _ Hs2.
  split; [rewrite <- Hs1; reflexivity|].
  split; [rewrite <- Hs1; reflexivity|].
  split; [rewrite <- Hs1, <- Hs2; discriminate|].
  exact (proj2 (C8_determinism 7 a_to_b [A; B] zero 2
                  twins.first_nodes twins.second_nodes same_counts_twins)
               3%nat 5%nat g1 s1' g2 s2' E1 E2).
Defined.

Lemma C9_nonpositive_rounds_witness :
  -3 <= 0 /\
  Calculate 0 cycle_graph fresh jump015 (-3)
  = Done (set_calculated true (set_jumpProbability jump015 cycle_graph), fresh).
Proof.
  split; [lia|].
  exact (proj1 (C9_nonpositive_rounds 0 cycle_graph fresh jump015 (-3)
                  ltac:(lia))).
Defined.

Lemma C10_error_path_atomic_witness :
  calculated cycle_graph = false /\
  Pagerank cycle_graph visited B false
  = (cycle_graph, (zero, Some not_calculated)) /\
  run_call 0 (CallPagerank B false) cycle_graph visited
  = Done (cycle_graph, visited).
Proof.
  split; [reflexivity|].
  exact (C10_error_path_atomic 0 cycle_graph visited B false eq_refl).
Defined.

Lemma C1_walk_steps_witness :
  traverseFrom 2 hop_graph only_a_starts A
  = Done (set_randomSource (script.Counter 10) hop_graph,
          <[B := Traverse (only_a_starts B)]>
            (<[A := Traverse (only_a_starts A)]> only_a_starts)) /\
  spec_walk hop_graph only_a_starts A
    (set_randomSource (script.Counter 10) hop_graph)
    (<[B := Traverse (only_a_starts B)]>
       (<[A := Traverse (only_a_starts A)]> only_a_starts)).
Proof.
  assert (E : traverseFrom 2 hop_graph only_a_starts A
              = Done (set_randomSource (script.Counter 10) hop_graph,
                      <[B := Traverse (only_a_starts B)]>
                        (<[A := Traverse (only_a_starts A)]> only_a_starts)))
    by reflexivity.
  split; [exact E|].
  exact (proj1 C1_walk_steps 2%nat hop_graph only_a_starts A _ _ E).
Defined.

Lemma C4_not_calculated_error_witness :
  calculated cycle_graph = false /\
  snd (snd (Pagerank cycle_graph visited C true)) = Some not_calculated.
Proof.
  split; [reflexivity|].
  exact (proj1 C4_not_calculated_error cycle_graph visited C true eq_refl).
Defined.

Lemma C5_zero_total_unguarded_witness :
  calculated calculated_cycle = true /\
  traversals calculated_cycle = 0 /\
  total_traversals fresh (nodes calculated_cycle) = 0 /\
  Traversals (fresh A) = 0 /\
  snd (Pagerank calculated_cycle fresh A false) = (S754_nan, None).
Proof.
  split; [reflexivity|]. split; [reflexivity|]. split; [reflexivity|].
  split; [reflexivity|].
  exact (proj2 (proj2 (proj2
           (proj1 C5_zero_total_unguarded calculated_cycle fresh A false
              eq_refl eq_refl eq_refl))) eq_refl).
Defined.

Lemma C6_total_cached_once_witness :
  calculated calculated_cycle = true /\
  summed calculated_cycle = false /\
  traversals calculated_cycle = 0 /\
  summed (fst (Pagerank calculated_cycle visited A true)) = true /\
  traversals (fst (Pagerank calculated_cycle visited A true)) = 6.
Proof.
  split; [reflexivity|]. split; [reflexivity|]. split; [reflexivity|].
  exact (proj1 C6_total_cached_once calculated_cycle visited A true
           eq_refl eq_refl eq_refl).
Defined.

(** * Further properties of the engine *)

Section EngineMore.

Context {loc : Type} `{EqDecision loc}.
Context {N : Type} `{Node N}.
Context {R : Type} `{RandSource R}.

Local Abbreviation Graph := (Graph loc R).
Local Abbreviation Store := (Store loc N).

Implicit Types (g : Graph) (s : Store) (node : loc).

(** *** A walk follows edges and counts every visit *)

Lemma follows_reachable (edges : loc -> list loc) (rest : list loc) :
  forall node, follows edges node rest ->
  forall m, m ∈ node :: rest -> reachable edges node m.
Proof.
  induction rest as [|next rest IH]; intros node Hf m Hm.
  - apply list_elem_of_singleton in Hm as ->. apply rtc_refl.
  - destruct Hf as [Hedge Hf].
    apply elem_of_cons in Hm as [->|Hm]; [apply rtc_refl|].
    eapply rtc_l; [exact Hedge|]. apply IH; assumption.
Qed.

Lemma traverseFrom_path fuel : forall g s node g' s',
  traverseFrom fuel g s node = Done (g', s') ->
  exists rest : list loc,
    follows (edgesFor g) node rest /\
    (length rest < fuel)%nat /\
    forall l, s' l = Nat.iter (walks_from l (node :: rest)) Traverse (s l).
Proof.
  assert (Hone : forall s node l,
             (<[node := Traverse (s node)]> s) l
             = Nat.iter (walks_from l [node]) Traverse (s l)).
  { intros s node l. rewrite walks_from_cons. unfold insert, fn_insert.
    destruct (decide (node = l)) as [->|_]; reflexivity. }
  induction fuel as [|fuel IH]; intros g s node g' s' E; [discriminate|].
  simpl in E.
  destruct (Float32 (randomSource g)) as [x r].
  destruct (ltb x (jumpProbability g)).
  { injection E as _ <-. exists []. split; [exact I|].
    split; [simpl; lia | apply Hone]. }
  destruct (Z.of_nat (length (edgesFor g node)) <? 1).
  { injection E as _ <-. exists []. split; [exact I|].
    split; [simpl; lia | apply Hone]. }
  destruct (Intn _ r) as [k r'].
  destruct (k <? 0); [discriminate|].
  destruct (edgesFor g node !! Z.to_nat k) as [next|] eqn:Enext;
    [|discriminate].
  apply IH in E as (rest & Hf & Hlen & Hs').
  exists (next :: rest). split; [|split].
  - split; [|exact Hf]. eapply list_elem_of_lookup_2. exact Enext.
  - simpl. lia.
  - intros l. rewrite Hs'. rewrite (walks_from_cons l node).
    unfold insert, fn_insert.
    destruct (decide (node = l)) as [->|_]; [|reflexivity].
    symmetry. apply (Nat.iter_succ_r _ Traverse).
Qed.

(** X1. A walk that returns went along edges of the caller's graph: the
    nodes it visited form a path from its origin in which each node is an
    outgoing neighbour of the previous one, shorter than the recursion
    depth; every node was traversed once per visit, and a node that is not
    on the path (in particular one that is not reachable from the origin)
    holds the object it held before. *)
Theorem X1_walk_follows_edges fuel g s node g' s' :
  traverseFrom fuel g s node = Done (g', s') ->
  exists rest : list loc,
    follows (edgesFor g) node rest /\
    (length rest < fuel)%nat /\
    (forall l, s' l = Nat.iter (walks_from l (node :: rest)) Traverse (s l)) /\
    (forall l, ~ reachable (edgesFor g) node l -> s' l = s l).
Proof.
  intros E. apply traverseFrom_path in E as (rest & Hf & Hlen & Hs').
  exists rest. repeat split; try assumption.
  intros l Hun. rewrite Hs', walks_from_absent; [reflexivity|].
  intros Hin. apply Hun. eapply follows_reachable; eassumption.
Qed.

Lemma run_walks_visits fuel (starts : list loc) : forall g s g' s',
  run_walks fuel starts g s = Done (g', s') ->
  exists visits : loc -> nat,
    (forall l, s' l = Nat.iter (visits l) Traverse (s l)) /\
    (forall l, (walks_from l starts <= visits l)%nat) /\
    (forall l, (forall n, n ∈ starts -> ~ reachable (edgesFor g) n l) ->
               visits l = 0%nat).
Proof.
  induction starts as [|n starts IH]; intros g s g' s' E; simpl in E.
  - injection E as _ <-. exists (fun _ => 0%nat).
    repeat split. intros l. unfold walks_from. simpl. lia.
  - apply bind_Done in E as [[g1 s1] [E1 E2]].
    pose proof (traverseFrom_same_but_random _ _ _ _ _ _ E1)
      as (_ & Hedges & _).
    apply traverseFrom_path in E1 as (rest & Hf & _ & Hs1).
    apply IH in E2 as (v2 & Hs' & Hlow & Hfar).
    exists (fun l => (v2 l + walks_from l (n :: rest))%nat).
    split; [|split].
    + intros l. rewrite Hs', Hs1. symmetry. apply Nat.iter_add.
    + intros l. specialize (Hlow l).
      rewrite (walks_from_cons l n starts), (walks_from_cons l n rest). lia.
    + intros l Hun. rewrite Hfar.
      * rewrite walks_from_absent; [reflexivity|].
        intros Hin. apply (Hun n); [left|].
        eapply follows_reachable; eassumption.
      * intros m Hm. rewrite Hedges. apply Hun. right. exact Hm.
Qed.

Lemma iter_Traverse_count `{!NodeContract N} (k : nat) (n : N) :
  Traversals (Nat.iter k Traverse n) mod uint64_modulus
  = (Traversals n + Z.of_nat k) mod uint64_modulus /\
  IsStarter (Nat.iter k Traverse n) = IsStarter n.
Proof.
  induction k as [|k [IHc IHs]].
  - simpl. rewrite Z.add_0_r. split; reflexivity.
  - change (Nat.iter (S k) Traverse n) with (Traverse (Nat.iter k Traverse n)).
    rewrite Traversals_Traverse, IsStarter_Traverse.
    split; [|exact IHs].
    unfold uint64_add. rewrite Z.mod_mod by (unfold uint64_modulus; lia).
    rewrite <- (Zplus_mod_idemp_l (Traversals (Nat.iter k Traverse n))).
    rewrite IHc, Zplus_mod_idemp_l. f_equal. lia.
Qed.

Lemma iter_Traverse_exact `{!NodeContract N} (k : nat) (n : N) :
  0 <= Traversals n ->
  Traversals n + Z.of_nat k < uint64_modulus ->
  Traversals (Nat.iter k Traverse n) = Traversals n + Z.of_nat k.
Proof.
  intros Hlo. induction k as [|k IH]; intros Hhi.
  - simpl. lia.
  - change (Nat.iter (S k) Traverse n) with (Traverse (Nat.iter k Traverse n)).
    rewrite Traversals_Traverse, IH by lia.
    unfold uint64_add. rewrite Z.mod_small by lia. lia.
Qed.

(** X2. [Calculate] only adds to the counters, in [uint64] arithmetic:
    when it returns, every node object is the one before the call
    traversed some number of times, at least once per walk started at that
    node; its counter is the old one plus that number modulo 2^64, which is
    exactly the old one plus that number (so not lower) as long as the sum
    stays below 2^64, and wraps around past 2^64 - 1; its starter flag is
    unchanged; a node that no starter of the collection reaches along
    edges was not traversed at all. *)
Theorem X2_calculate_accumulates `{!NodeContract N} fuel g s
    (JumpProbability : float32) (RoundsPerNode : Z) g' s' :
  Calculate fuel g s JumpProbability RoundsPerNode = Done (g', s') ->
  exists visits : loc -> nat,
    (forall l, s' l = Nat.iter (visits l) Traverse (s l)) /\
    (forall l, Traversals (s' l) mod uint64_modulus
               = (Traversals (s l) + Z.of_nat (visits l)) mod uint64_modulus /\
               IsStarter (s' l) = IsStarter (s l)) /\
    (forall l, 0 <= Traversals (s l) ->
               Traversals (s l) + Z.of_nat (visits l) < uint64_modulus ->
               Traversals (s' l) = Traversals (s l) + Z.of_nat (visits l)) /\
    (forall l, (walks_from l (spec_origins s RoundsPerNode (nodes g))
                <= visits l)%nat) /\
    (forall l,
        (forall n, n ∈ nodes g -> IsStarter (s n) = true ->
                   ~ reachable (edgesFor g) n l) ->
        visits l = 0%nat /\ s' l = s l).
Proof.
  unfold Calculate. rewrite range_nodes_walks. intros E.
  apply bind_Done in E as [[g1 s1] [E1 E2]]. injection E2 as _ <-.
  apply run_walks_visits in E1 as (visits & Hs' & Hlow & Hfar).
  exists visits. split; [exact Hs'|].
  split; [|split; [|split; [exact Hlow|]]].
  - intros l. rewrite Hs'. apply iter_Traverse_count.
  - intros l Hlo Hhi. rewrite Hs'. apply iter_Traverse_exact; assumption.
  - intros l Hun.
    assert (Hv : visits l = 0%nat).
    { apply Hfar. simpl. intros n Hn. unfold spec_origins in Hn.
      apply list_elem_of_In, in_flat_map in Hn as (m & Hm & Hn).
      apply list_elem_of_In in Hm.
      destruct (IsStarter (s m)) eqn:Es.
      - apply list_elem_of_In, elem_of_replicate in Hn as [-> _].
        apply Hun; assumption.
      - inversion Hn. }
    split; [exact Hv|]. rewrite Hs', Hv. reflexivity.
Qed.

(** *** No panic *)


Section WithRandContract.

Context `{!RandContract R}.

Lemma Intn_lookup (outlinks : list loc) (r : R) :
  (Z.of_nat (length outlinks) <? 1) = false ->
  (fst (Intn (Z.of_nat (length outlinks)) r) <? 0) = false /\
  is_Some (outlinks !! Z.to_nat (fst (Intn (Z.of_nat (length outlinks)) r))).
Proof.
  intros Hlen. apply Z.ltb_ge in Hlen.
  pose proof (Intn_range (Z.of_nat (length outlinks)) r ltac:(lia)) as Hk.
  split; [apply Z.ltb_ge; lia|].
  apply lookup_lt_is_Some. lia.
Qed.





(** *** Walks that never return *)

Lemma ltb_not_above_zero (x jp : float32) :
  leb zero x = true -> ltb zero jp = false -> ltb x jp = false.
Proof.
  destruct x as [[]|[]| |[] mx ex], jp as [[]|[]| |[] mj ej];
    intros Hx Hjp; try reflexivity; try discriminate Hx; discriminate Hjp.
Qed.

Lemma traverseFrom_diverges fuel : forall g s node,
  ltb zero (jumpProbability g) = false ->
  (forall n, edgesFor g n <> []) ->
  traverseFrom fuel g s node = OutOfFuel.
Proof.
  induction fuel as [|fuel IH]; intros g s node Hjp Hedges; [reflexivity|].
  simpl.
  pose proof (Float32_range (randomSource g)) as [Hx _].
  destruct (Float32 (randomSource g)) as [x r]. simpl in Hx.
  rewrite (ltb_not_above_zero x _ Hx Hjp).
  destruct (Z.of_nat (length (edgesFor g node)) <? 1) eqn:Elen.
  { apply empty_outlinks in Elen. destruct (Hedges node Elen). }
  destruct (Intn_lookup (edgesFor g node) r Elen) as [Hneg [next Hnext]].
  simpl. destruct (Intn _ r) as [k r']. simpl in Hneg, Hnext.
  rewrite Hneg, Hnext. apply IH; assumption.
Qed.

(** X4. Nothing bounds a walk but the jump test and dead ends: when
    [jumpProbability] is not above zero (0, negative or NaN) and every node
    has an outgoing edge, no walk returns however deep the recursion may
    go, and neither does a [Calculate] with at least one round over a
    collection holding a starter. *)
Theorem X4_zero_jump_never_returns g s (JumpProbability : float32)
    (RoundsPerNode : Z) :
  ltb zero JumpProbability = false ->
  (forall n, edgesFor g n <> []) ->
  (forall fuel node,
      traverseFrom fuel (set_jumpProbability JumpProbability g) s node
      = OutOfFuel) /\
  ((exists n, n ∈ nodes g /\ IsStarter (s n) = true) ->
   0 < RoundsPerNode ->
   forall fuel, Calculate fuel g s JumpProbability RoundsPerNode = OutOfFuel).
Proof.
  intros Hjp Hedges. split.
  - intros fuel node. apply traverseFrom_diverges; assumption.
  - intros (n & Hin & Hst) Hr fuel. unfold Calculate.
    assert (E : range_nodes fuel RoundsPerNode (nodes g)
                  (set_jumpProbability JumpProbability g) s = OutOfFuel).
    { simpl nodes. induction Hin as [n ns|n m ns Hin IH]; simpl.
      - rewrite Hst. simpl.
        destruct (Z.to_nat RoundsPerNode) as [|k] eqn:Ek; [lia|]. simpl.
        rewrite traverseFrom_diverges by assumption. reflexivity.
      - destruct (negb (IsStarter (s m))); [exact (IH Hst)|].
        destruct (Z.to_nat RoundsPerNode) as [|k] eqn:Ek; [lia|]. simpl.
        rewrite traverseFrom_diverges by assumption. reflexivity. }
    simpl nodes. rewrite E. reflexivity.
Qed.

(** *** Walks of a single step *)

Lemma ltb_leb_trans_finite (x z : float32) (m : positive) (e : Z) :
  SFltb x (S754_finite false m e) = true ->
  SFleb (S754_finite false m e) z = true ->
  SFltb x z = true.
Proof.
  unfold SFltb, SFleb.
  destruct x as [[]|[]| |[] mx ex], z as [[]|[]| |[] mz ez];
    cbn [SFcompare]; intros Hx Hz;
    try discriminate Hx; try discriminate Hz; try reflexivity.
  pose proof (Pos.compare_spec mx m) as Hxm.
  pose proof (Pos.compare_spec m mz) as Hmz.
  pose proof (Pos.compare_spec mx mz) as Hxz.
  unfold Pos.compare in Hxm, Hmz, Hxz.
  destruct (Z.compare_spec ex e) as [Hex|Hex|Hex];
    try discriminate Hx;
    destruct (Z.compare_spec e ez) as [Hez|Hez|Hez];
    try discriminate Hz;
    destruct (Z.compare_spec ex ez) as [Hee|Hee|Hee];
    try reflexivity; try lia.
  destruct Hxm as [Hm|Hm|Hm]; try discriminate Hx.
  destruct Hmz as [Hn|Hn|Hn]; try discriminate Hz;
    destruct Hxz; try reflexivity; lia.
Qed.

Lemma ltb_below_one (x jp : float32) :
  ltb x one32 = true -> leb one32 jp = true -> ltb x jp = true.
Proof. apply ltb_leb_trans_finite. Qed.

Lemma traverseFrom_one_step fuel g s node :
  leb one32 (jumpProbability g) = true \/ (forall n, edgesFor g n = []) ->
  traverseFrom (S fuel) g s node
  = Done (set_randomSource (snd (Float32 (randomSource g))) g,
          <[node := Traverse (s node)]> s).
Proof.
  intros [Hjp|Hedges].
  - simpl.
    pose proof (Float32_range (randomSource g)) as [_ Hlt].
    destruct (Float32 (randomSource g)) as [x r]. simpl in *.
    rewrite (ltb_below_one x _ Hlt Hjp). reflexivity.
  - apply traverseFrom_dead_end. apply Hedges.
Qed.

Lemma run_walks_one_step fuel (starts : list loc) : forall g s,
  leb one32 (jumpProbability g) = true \/ (forall n, edgesFor g n = []) ->
  exists g' s',
    run_walks (S fuel) starts g s = Done (g', s') /\
    same_but_random g g' /\
    forall l, s' l = Nat.iter (walks_from l starts) Traverse (s l).
Proof.
  induction starts as [|n starts IH]; intros g s Hone.
  - exists g, s. repeat split.
  - cbn [run_walks]. rewrite traverseFrom_one_step by exact Hone.
    destruct (IH (set_randomSource (snd (Float32 (randomSource g))) g)
                 (<[n := Traverse (s n)]> s) Hone) as (g' & s' & E & Hg & Hs').
    exists g', s'. split; [exact E|]. split.
    { eapply same_but_random_trans; [apply same_but_random_set | exact Hg]. }
    intros l. rewrite Hs', walks_from_cons.
    unfold insert, fn_insert.
    destruct (decide (n = l)) as [->|_]; simpl; [|reflexivity].
    symmetry. apply (Nat.iter_succ_r (walks_from l starts) Traverse).
Qed.

(** X5. When [jumpProbability] is at least 1, or when no node has an
    outgoing edge, every walk ends after its first step: [Calculate]
    returns on any graph with a recursion depth of one, and it traversed
    each node exactly once per walk started at it, that is [RoundsPerNode]
    times per starter entry of the collection and never a non-starter. *)
Theorem X5_single_step_walks `{!NodeContract N} fuel g s
    (JumpProbability : float32) (RoundsPerNode : Z) :
  leb one32 JumpProbability = true \/ (forall n, edgesFor g n = []) ->
  exists g' s',
    Calculate (S fuel) g s JumpProbability RoundsPerNode = Done (g', s') /\
    calculated g' = true /\
    (forall l, s' l
               = Nat.iter (walks_from l (spec_origins s RoundsPerNode (nodes g)))
                   Traverse (s l)) /\
    (forall l, IsStarter (s l) = false -> s' l = s l).
Proof.
  intros Hone. unfold Calculate. rewrite range_nodes_walks.
  destruct (run_walks_one_step fuel
              (spec_origins s RoundsPerNode (nodes g))
              (set_jumpProbability JumpProbability g) s Hone)
    as (g1 & s1 & E & Hg & Hs).
  simpl nodes. rewrite E. simpl.
  exists (set_calculated true g1), s1.
  split; [reflexivity|]. split; [reflexivity|]. split; [exact Hs|].
  intros l Hl. rewrite Hs, walks_from_spec_origins, Hl. reflexivity.
Qed.

End WithRandContract.

(** *** Queries *)

(** X6. Queries do not disturb one another: asking for a second score
    after a first one, the node objects being the same, returns exactly
    what the second query alone would have returned, and leaves the graph
    as the first query left it. So a repeated query returns the same value,
    and the order of the queries after a [Calculate] does not matter. *)
Theorem X6_queries_commute g s (node1 node2 : loc)
    (normalized1 normalized2 : bool) :
  Pagerank (fst (Pagerank g s node1 normalized1)) s node2 normalized2
  = (fst (Pagerank g s node1 normalized1),
     snd (Pagerank g s node2 normalized2)).
Proof.
  destruct (calculated g) eqn:Hc.
  - rewrite (Pagerank_calculated g s node1) by exact Hc.
    rewrite (Pagerank_calculated g s node2) by exact Hc. simpl.
    unfold with_total at 1. destruct (summed g) eqn:Hs; simpl.
    + rewrite Pagerank_calculated by exact Hc.
      unfold with_total. rewrite Hs. reflexivity.
    + rewrite Pagerank_calculated by exact Hc.
      unfold with_total. rewrite Hs. reflexivity.
  - rewrite (Pagerank_not_calculated g s node1) by exact Hc. simpl.
    destruct (Pagerank g s node2 normalized2) as [g2 res] eqn:E.
    rewrite Pagerank_not_calculated in E by exact Hc.
    injection E as <- <-. reflexivity.
Qed.

End EngineMore.

(** * The earlier engine *)

Section LegacyFacts.

Context {loc : Type} `{Countable loc}.
Context {N : Type} `{Node N}.
Context {R : Type} `{RandSource R}.

Local Abbreviation LGraph := (part_000.Graph loc R).

Implicit Types (g : LGraph) (s : Store loc N).

Lemma wf_NewGraph (seed : Z) : part_000.wf (part_000.NewGraph seed : LGraph).
Proof.
  split; simpl.
  - reflexivity.
  - intros n i. rewrite lookup_empty. split; discriminate.
  - intros outs m Hin. inversion Hin.
Qed.

Lemma wf_known g (n : loc) :
  part_000.wf g -> (n ∈ part_000.nodes g <-> is_Some (part_000.nodeMap g !! n)).
Proof.
  intros Hwf. rewrite list_elem_of_lookup. split.
  - intros [i Hi]. exists i. apply (part_000.wf_position g Hwf). exact Hi.
  - intros [i Hi]. exists i. apply (part_000.wf_position g Hwf). exact Hi.
Qed.

Lemma wf_index g (n : loc) (i : nat) :
  part_000.wf g -> part_000.nodeMap g !! n = Some i ->
  (i < length (part_000.edges g))%nat.
Proof.
  intros Hwf Hi. rewrite (part_000.wf_length g Hwf).
  apply (part_000.wf_position g Hwf) in Hi.
  eapply lookup_lt_Some. exact Hi.
Qed.

Lemma wf_NoDup g : part_000.wf g -> NoDup (part_000.nodes g).
Proof.
  intros Hwf. apply NoDup_alt. intros i j n Hi Hj.
  apply (part_000.wf_position g Hwf) in Hi, Hj. congruence.
Qed.

Lemma add_node_spec g (n : loc) :
  part_000.wf g ->
  part_000.wf (part_000.add_node n g) /\
  part_000.nodes (part_000.add_node n g)
  = part_000.nodes g ++ (if decide (n ∈ part_000.nodes g) then [] else [n]) /\
  part_000.edges (part_000.add_node n g)
  = part_000.edges g ++ (if decide (n ∈ part_000.nodes g) then [] else [[]]) /\
  (forall m i, part_000.nodeMap g !! m = Some i ->
               part_000.nodeMap (part_000.add_node n g) !! m = Some i) /\
  (forall m, m <> n ->
             part_000.nodeMap (part_000.add_node n g) !! m
             = part_000.nodeMap g !! m) /\
  (n ∉ part_000.nodes g ->
   part_000.nodeMap (part_000.add_node n g) !! n
   = Some (length (part_000.nodes g))) /\
  part_000.traversals (part_000.add_node n g) = part_000.traversals g /\
  part_000.randomSource (part_000.add_node n g) = part_000.randomSource g /\
  part_000.jumpProbability (part_000.add_node n g)
  = part_000.jumpProbability g /\
  part_000.calculated (part_000.add_node n g) = part_000.calculated g.
Proof.
  intros Hwf. pose proof (wf_known g n Hwf) as Hknown.
  unfold part_000.add_node.
  destruct (part_000.nodeMap g !! n) as [i|] eqn:En.
  - assert (Hin : n ∈ part_000.nodes g) by (apply Hknown; eauto).
    destruct (decide (n ∈ part_000.nodes g)); [|contradiction].
    rewrite !app_nil_r. split_and!; try done.
  - assert (Hout : n ∉ part_000.nodes g).
    { intros Hin. apply Hknown in Hin as [i Hi]. discriminate. }
    destruct (decide (n ∈ part_000.nodes g)); [contradiction|].
    assert (Elen : (length (part_000.nodes g ++ [n]) - 1)%nat
                   = length (part_000.nodes g)).
    { rewrite length_app. simpl. lia. }
    rewrite Elen. simpl.
    split_and!; try done.
    + split; simpl.
      * rewrite !length_app, (part_000.wf_length g Hwf). reflexivity.
      * intros m i. rewrite lookup_snoc_Some.
        destruct (decide (m = n)) as [->|Hne].
        -- rewrite lookup_insert_eq. split.
           ++ intros [= <-]. right. split; reflexivity.
           ++ intros [[_ Hi]|[-> _]]; [|reflexivity].
              destruct Hout. eapply list_elem_of_lookup_2. exact Hi.
        -- rewrite lookup_insert_ne by congruence.
           rewrite (part_000.wf_position g Hwf). split.
           ++ intros Hi. left. split; [|exact Hi].
              eapply lookup_lt_Some. exact Hi.
           ++ intros [[_ Hi]|[_ Hn]]; [exact Hi|congruence].
      * intros outs m Hin Hm. apply elem_of_app. left.
        apply elem_of_app in Hin as [Hin|Hin].
        -- eapply (part_000.wf_closed g Hwf); eassumption.
        -- apply list_elem_of_singleton in Hin as ->. inversion Hm.
    + intros m i Hm. rewrite lookup_insert_ne; [exact Hm|]. congruence.
    + intros m Hne. rewrite lookup_insert_ne; [reflexivity|]. congruence.
    + intros _. apply lookup_insert_eq.
Qed.

Lemma add_node_known g (n : loc) :
  part_000.wf g -> n ∈ part_000.nodes (part_000.add_node n g).
Proof.
  intros Hwf. destruct (add_node_spec g n Hwf) as (_ & -> & _).
  apply elem_of_app.
  destruct (decide (n ∈ part_000.nodes g)); [left; assumption|].
  right. apply list_elem_of_singleton. reflexivity.
Qed.

Lemma add_node_recorded g (m n : loc) :
  part_000.wf g ->
  part_000.recorded (part_000.add_node m g) n = part_000.recorded g n.
Proof.
  intros Hwf.
  destruct (add_node_spec g m Hwf) as (_ & _ & He & Hkeep & Hother & Hnew & _).
  unfold part_000.recorded. rewrite He.
  destruct (part_000.nodeMap g !! n) as [i|] eqn:En.
  - rewrite (Hkeep n i En). rewrite lookup_app_l; [reflexivity|].
    eapply wf_index; eassumption.
  - destruct (decide (n = m)) as [->|Hne].
    + assert (Hout : m ∉ part_000.nodes g).
      { intros Hin. apply (wf_known g m Hwf) in Hin as [i Hi]. congruence. }
      rewrite (Hnew Hout).
      destruct (decide (m ∈ part_000.nodes g)); [contradiction|].
      rewrite list_lookup_middle; [reflexivity|].
      symmetry. apply (part_000.wf_length g Hwf).
    + rewrite (Hother n Hne), En. reflexivity.
Qed.

Lemma outlinks_recorded g (n : loc) :
  part_000.wf g -> n ∈ part_000.nodes g ->
  part_000.outlinks g n = Done (part_000.recorded g n).
Proof.
  intros Hwf Hin. apply (wf_known g n Hwf) in Hin as [i Hi].
  unfold part_000.outlinks, part_000.recorded, part_000.position.
  rewrite Hi. simpl.
  destruct (lookup_lt_is_Some_2 (part_000.edges g) i
              (wf_index g n i Hwf Hi)) as [outs Houts].
  rewrite Houts. reflexivity.
Qed.

Lemma AddEdge_spec g (a b : loc) :
  part_000.wf g ->
  exists g',
    part_000.AddEdge g a b = Done g' /\
    part_000.wf g' /\
    part_000.nodes g'
    = part_000.nodes (part_000.add_node b (part_000.add_node a g)) /\
    (forall n, part_000.recorded g' n
               = part_000.recorded g n ++ (if decide (n = a) then [b] else [])) /\
    part_000.traversals g' = part_000.traversals g /\
    part_000.randomSource g' = part_000.randomSource g /\
    part_000.jumpProbability g' = part_000.jumpProbability g /\
    part_000.calculated g' = part_000.calculated g.
Proof.
  intros Hwf.
  pose proof (add_node_spec g a Hwf) as (Hwf1 & _ & _ & _ & _ & _ & Ht1 & Hr1 & Hj1 & Hc1).
  pose proof (add_node_known g a Hwf) as Ha1.
  set (g1 := part_000.add_node a g) in *.
  pose proof (add_node_spec g1 b Hwf1) as (Hwf2 & Hn2 & _ & Hkeep2 & _ & _ & Ht2 & Hr2 & Hj2 & Hc2).
  pose proof (add_node_known g1 b Hwf1) as Hb2.
  pose proof (add_node_recorded g1 b) as Hrec2.
  set (g2 := part_000.add_node b g1) in *.
  apply (wf_known g1 a Hwf1) in Ha1 as [ia Hia1].
  pose proof (Hkeep2 a ia Hia1) as Hia.
  pose proof (wf_index g2 a ia Hwf2 Hia) as Hlt.
  destruct (lookup_lt_is_Some_2 _ _ Hlt) as [outs Houts].
  unfold part_000.AddEdge. fold g1. fold g2.
  unfold part_000.position. rewrite Hia. simpl. rewrite Houts.
  eexists. split; [reflexivity|]. split_and!; simpl; try congruence.
  - split; simpl.
    + rewrite length_insert. apply (part_000.wf_length g2 Hwf2).
    + apply (part_000.wf_position g2 Hwf2).
    + intros outs' m Hin Hm.
      apply list_elem_of_lookup in Hin as [j Hj].
      apply list_lookup_insert_Some in Hj as [(_ & <- & _)|(_ & Hj)].
      * apply elem_of_app in Hm as [Hm|Hm].
        -- eapply (part_000.wf_closed g2 Hwf2); [|exact Hm].
           eapply list_elem_of_lookup_2. exact Houts.
        -- apply list_elem_of_singleton in Hm as ->. exact Hb2.
      * eapply (part_000.wf_closed g2 Hwf2); [|exact Hm].
        eapply list_elem_of_lookup_2. exact Hj.
  - intros n. rewrite <- (add_node_recorded g a n Hwf). fold g1.
    rewrite <- (Hrec2 n Hwf1).
    unfold part_000.recorded. simpl.
    destruct (decide (n = a)) as [->|Hne].
    + rewrite Hia, list_lookup_insert_eq by exact Hlt.
      rewrite Houts. reflexivity.
    + rewrite app_nil_r.
      destruct (part_000.nodeMap g2 !! n) as [i|] eqn:En; [|reflexivity].
      rewrite list_lookup_insert_ne; [reflexivity|].
      intros <-. apply Hne.
      apply (part_000.wf_position g2 Hwf2) in En, Hia. congruence.
Qed.

Lemma recorded_unknown g (n : loc) :
  part_000.wf g -> n ∉ part_000.nodes g -> part_000.recorded g n = [].
Proof.
  intros Hwf Hout. unfold part_000.recorded.
  destruct (part_000.nodeMap g !! n) as [i|] eqn:En; [|reflexivity].
  destruct Hout. apply (wf_known g n Hwf). eauto.
Qed.

Lemma AddEdge_nodes g (a b : loc) :
  part_000.wf g ->
  part_000.nodes (part_000.add_node b (part_000.add_node a g))
  = part_000.nodes g
    ++ (if decide (a ∈ part_000.nodes g) then [] else [a])
    ++ (if decide (b ∈ part_000.nodes g \/ b = a) then [] else [b]).
Proof.
  intros Hwf.
  pose proof (add_node_spec g a Hwf) as (Hwf1 & Hn1 & _).
  pose proof (add_node_known g a Hwf) as Ha1.
  pose proof (add_node_spec _ b Hwf1) as (_ & -> & _).
  rewrite (app_assoc (part_000.nodes g)). rewrite <- Hn1. f_equal.
  destruct (decide (b ∈ part_000.nodes (part_000.add_node a g))) as [Hb|Hb];
    destruct (decide (b ∈ part_000.nodes g \/ b = a)) as [Hb'|Hb'];
    try reflexivity; exfalso.
  - apply Hb'. rewrite Hn1 in Hb. apply elem_of_app in Hb as [Hb|Hb];
      [left; exact Hb|].
    destruct (decide (a ∈ part_000.nodes g)); [inversion Hb|].
    apply list_elem_of_singleton in Hb. right. exact Hb.
  - apply Hb. destruct Hb' as [Hb'| ->]; [|exact Ha1].
    rewrite Hn1. apply elem_of_app. left. exact Hb'.
Qed.

Lemma AddEdge_members g (a b : loc) :
  part_000.wf g ->
  exists g',
    part_000.AddEdge g a b = Done g' /\
    part_000.wf g' /\
    a ∈ part_000.nodes g' /\ b ∈ part_000.nodes g' /\
    (forall n, n ∈ part_000.nodes g -> n ∈ part_000.nodes g') /\
    (forall n, part_000.recorded g' n
               = part_000.recorded g n ++ (if decide (n = a) then [b] else [])).
Proof.
  intros Hwf.
  destruct (AddEdge_spec g a b Hwf) as (g' & E & Hwf' & Hn & Hrec & _).
  exists g'. split; [exact E|]. split; [exact Hwf'|].
  rewrite Hn, (AddEdge_nodes g a b Hwf). split_and!.
  - destruct (decide (a ∈ part_000.nodes g)); set_solver.
  - destruct (decide (b ∈ part_000.nodes g \/ b = a)) as [[Hb| ->]|];
      [set_solver| |set_solver].
    destruct (decide (a ∈ part_000.nodes g)); set_solver.
  - intros n Hin. set_solver.
  - exact Hrec.
Qed.

(** X7. [NewGraph] and [AddEdge] keep the graph's three containers in
    step: the map sends each node to its one position in the node list,
    there is one edge list per node, and every recorded neighbour is itself
    in the node list. On such a graph [AddEdge] does not panic, and both of
    its arguments are nodes of the result, each listed once. *)
Theorem X7_AddEdge_keeps_shape :
  (forall seed : Z, part_000.wf (part_000.NewGraph seed : LGraph)) /\
  (forall g (nodeFrom nodeTo : loc),
      part_000.wf g ->
      exists g',
        part_000.AddEdge g nodeFrom nodeTo = Done g' /\
        part_000.wf g' /\
        NoDup (part_000.nodes g') /\
        nodeFrom ∈ part_000.nodes g' /\ nodeTo ∈ part_000.nodes g').
Proof.
  split; [apply wf_NewGraph|].
  intros g a b Hwf.
  destruct (AddEdge_spec g a b Hwf) as (g' & E & Hwf' & Hn & _).
  exists g'. split; [exact E|]. split; [exact Hwf'|].
  split; [apply wf_NoDup; exact Hwf'|].
  rewrite Hn, (AddEdge_nodes g a b Hwf). split.
  - destruct (decide (a ∈ part_000.nodes g)); set_solver.
  - destruct (decide (b ∈ part_000.nodes g \/ b = a)) as [[Hb| ->]|];
      [set_solver| |set_solver].
    destruct (decide (a ∈ part_000.nodes g)); set_solver.
Qed.

(** X8. [AddEdge] followed by [outlinks]: the new neighbour is appended to
    the out-neighbours of [nodeFrom] (it becomes the only one if
    [nodeFrom] was not in the graph), duplicates and self-loops included;
    the out-neighbours of every other node of the graph are the same as
    before; and a [nodeTo] that was not in the graph has none. *)
Theorem X8_AddEdge_outlinks g (nodeFrom nodeTo : loc) g' :
  part_000.wf g ->
  part_000.AddEdge g nodeFrom nodeTo = Done g' ->
  (forall outs, nodeFrom ∈ part_000.nodes g ->
                part_000.outlinks g nodeFrom = Done outs ->
                part_000.outlinks g' nodeFrom = Done (outs ++ [nodeTo])) /\
  (nodeFrom ∉ part_000.nodes g ->
   part_000.outlinks g' nodeFrom = Done [nodeTo]) /\
  (forall n, n <> nodeFrom -> n ∈ part_000.nodes g ->
             part_000.outlinks g' n = part_000.outlinks g n) /\
  (nodeTo ∉ part_000.nodes g -> nodeTo <> nodeFrom ->
   part_000.outlinks g' nodeTo = Done []).
Proof.
  intros Hwf E.
  destruct (AddEdge_members g nodeFrom nodeTo Hwf)
    as (g0 & E0 & Hwf' & Ha & Hb & Hmono & Hrec).
  rewrite E in E0. injection E0 as <-.
  split_and!.
  - intros outs Hin Ho. rewrite outlinks_recorded in Ho by assumption.
    injection Ho as <-.
    rewrite outlinks_recorded, Hrec by assumption.
    destruct (decide (nodeFrom = nodeFrom)); [reflexivity|contradiction].
  - intros Hout. rewrite outlinks_recorded, Hrec by assumption.
    rewrite recorded_unknown by assumption.
    destruct (decide (nodeFrom = nodeFrom)); [reflexivity|contradiction].
  - intros n Hne Hin.
    rewrite !outlinks_recorded, Hrec by auto.
    destruct (decide (n = nodeFrom)); [contradiction|].
    rewrite app_nil_r. reflexivity.
  - intros Hout Hne. rewrite outlinks_recorded, Hrec by assumption.
    rewrite recorded_unknown by assumption.
    destruct (decide (nodeTo = nodeFrom)); [contradiction|reflexivity].
Qed.

(** X9. [AddEdge] lists nodes in order of first mention and touches
    nothing but the graph's containers: the node list grows at its end by
    [nodeFrom] and then [nodeTo], each only if it was not there; there is
    still one edge list per node; and the [calculated] flag, the cached
    total, the jump probability and the random source are the ones before
    the call, so a graph that was calculated stays so when an edge is
    added. *)
Theorem X9_AddEdge_order_and_frame g (nodeFrom nodeTo : loc) g' :
  part_000.wf g ->
  part_000.AddEdge g nodeFrom nodeTo = Done g' ->
  part_000.nodes g'
  = part_000.nodes g
    ++ (if decide (nodeFrom ∈ part_000.nodes g) then [] else [nodeFrom])
    ++ (if decide (nodeTo ∈ part_000.nodes g \/ nodeTo = nodeFrom)
        then [] else [nodeTo]) /\
  length (part_000.edges g') = length (part_000.nodes g') /\
  part_000.calculated g' = part_000.calculated g /\
  part_000.traversals g' = part_000.traversals g /\
  part_000.jumpProbability g' = part_000.jumpProbability g /\
  part_000.randomSource g' = part_000.randomSource g.
Proof.
  intros Hwf E.
  destruct (AddEdge_spec g nodeFrom nodeTo Hwf)
    as (g0 & E0 & Hwf' & Hn & _ & Ht & Hr & Hj & Hc).
  rewrite E in E0. injection E0 as <-.
  split_and!; try assumption.
  - rewrite Hn. apply AddEdge_nodes. exact Hwf.
  - apply (part_000.wf_length g' Hwf').
Qed.

(** X10. [outlinks] of a node that [AddEdge] never saw: the map read
    yields position 0, so the call panics on the empty graph and otherwise
    returns the out-neighbours of the first node of the graph. *)
Theorem X10_outlinks_unknown_node g (node : loc) :
  part_000.wf g ->
  node ∉ part_000.nodes g ->
  part_000.outlinks g node
  = match part_000.nodes g with
    | [] => Panic
    | first :: _ => part_000.outlinks g first
    end.
Proof.
  intros Hwf Hout.
  assert (En : part_000.nodeMap g !! node = None).
  { destruct (part_000.nodeMap g !! node) as [i|] eqn:En; [|reflexivity].
    destruct Hout. apply (wf_known g node Hwf). eauto. }
  pose proof (part_000.wf_length g Hwf) as Hlen.
  unfold part_000.outlinks at 1. unfold part_000.position. rewrite En. simpl.
  destruct (part_000.nodes g) as [|first rest] eqn:Enodes.
  - destruct (part_000.edges g); [reflexivity|discriminate].
  - assert (E0 : part_000.nodeMap g !! first = Some 0%nat).
    { apply (part_000.wf_position g Hwf). rewrite Enodes. reflexivity. }
    unfold part_000.outlinks, part_000.position. rewrite E0. reflexivity.
Qed.

(** *** The earlier engine and the current one *)

Lemma wf_same_containers g g' :
  part_000.wf g ->
  part_000.nodeMap g' = part_000.nodeMap g ->
  part_000.nodes g' = part_000.nodes g ->
  part_000.edges g' = part_000.edges g ->
  part_000.wf g'.
Proof.
  intros [Ha Hb Hc] Em En Ee. split; rewrite ?Em, ?En, ?Ee; assumption.
Qed.

Lemma recorded_in_edges g (n : loc) :
  part_000.wf g -> n ∈ part_000.nodes g ->
  part_000.recorded g n ∈ part_000.edges g.
Proof.
  intros Hwf Hin. apply (wf_known g n Hwf) in Hin as [i Hi].
  unfold part_000.recorded. rewrite Hi.
  destruct (lookup_lt_is_Some_2 (part_000.edges g) i
              (wf_index g n i Hwf Hi)) as [outs Houts].
  rewrite Houts. simpl. eapply list_elem_of_lookup_2. exact Houts.
Qed.

Lemma legacy_traverseFrom_frame fuel : forall g s (node : loc) g' s',
  part_000.traverseFrom fuel g s node = Done (g', s') ->
  part_000.nodeMap g' = part_000.nodeMap g /\
  part_000.nodes g' = part_000.nodes g /\
  part_000.edges g' = part_000.edges g.
Proof.
  induction fuel as [|fuel IH]; intros g s node g' s' E; [discriminate|].
  simpl in E.
  destruct (Float32 (part_000.randomSource g)) as [x r].
  destruct (ltb x (part_000.jumpProbability g)).
  { injection E as <- _. repeat split. }
  apply bind_Done in E as (outs & _ & E).
  destruct (Z.of_nat (length outs) <? 1).
  { injection E as <- _. repeat split. }
  simpl in E. destruct (Intn _ r) as [k r'].
  destruct (k <? 0); [discriminate|].
  destruct (outs !! Z.to_nat k) as [next|]; [|discriminate].
  apply IH in E. exact E.
Qed.

Lemma legacy_traverseFrom_agrees fuel : forall g s (node : loc),
  part_000.wf g -> node ∈ part_000.nodes g ->
  (part_000.traverseFrom fuel g s node ≫= lift_current)
  = traverseFrom fuel (to_current g) s node.
Proof.
  induction fuel as [|fuel IH]; intros g s node Hwf Hin; [reflexivity|].
  simpl.
  destruct (Float32 (part_000.randomSource g)) as [x r].
  destruct (ltb x (part_000.jumpProbability g)); [reflexivity|].
  assert (Hwf1 : part_000.wf (part_000.set_randomSource r g))
    by (eapply wf_same_containers; [exact Hwf|reflexivity..]).
  rewrite (outlinks_recorded _ node Hwf1 Hin). simpl.
  change (part_000.recorded (part_000.set_randomSource r g) node)
    with (part_000.recorded g node).
  destruct (Z.of_nat (length (part_000.recorded g node)) <? 1);
    [reflexivity|].
  destruct (Intn _ r) as [k r'].
  destruct (k <? 0); [reflexivity|].
  destruct (part_000.recorded g node !! Z.to_nat k) as [next|] eqn:Enext;
    [|reflexivity].
  apply IH.
  - eapply wf_same_containers; [exact Hwf|reflexivity..].
  - simpl. eapply (part_000.wf_closed g Hwf);
      [apply recorded_in_edges; eassumption
      |eapply list_elem_of_lookup_2; exact Enext].
Qed.

Lemma legacy_run_rounds_frame fuel (k : nat) (node : loc) :
  forall g s g' s',
  part_000.run_rounds fuel k node g s = Done (g', s') ->
  part_000.nodeMap g' = part_000.nodeMap g /\
  part_000.nodes g' = part_000.nodes g /\
  part_000.edges g' = part_000.edges g.
Proof.
  induction k as [|k IH]; intros g s g' s' E; simpl in E.
  - injection E as <- _. repeat split.
  - apply bind_Done in E as [[g1 s1] [E1 E2]].
    apply legacy_traverseFrom_frame in E1 as (Em & En & Ee).
    apply IH in E2 as (Em' & En' & Ee'). repeat split; congruence.
Qed.

Lemma legacy_range_nodes_frame fuel (r : Z) (ns : list loc) :
  forall g s g' s',
  part_000.range_nodes fuel r ns g s = Done (g', s') ->
  part_000.nodeMap g' = part_000.nodeMap g /\
  part_000.nodes g' = part_000.nodes g /\
  part_000.edges g' = part_000.edges g.
Proof.
  induction ns as [|n ns IH]; intros g s g' s' E; simpl in E.
  - injection E as <- _. repeat split.
  - destruct (negb (IsStarter (s n))); [apply IH in E; exact E|].
    apply bind_Done in E as [[g1 s1] [E1 E2]].
    apply legacy_run_rounds_frame in E1 as (Em & En & Ee).
    apply IH in E2 as (Em' & En' & Ee'). repeat split; congruence.
Qed.

Lemma legacy_run_rounds_agrees fuel (k : nat) (node : loc) : forall g s,
  part_000.wf g -> node ∈ part_000.nodes g ->
  (part_000.run_rounds fuel k node g s ≫= lift_current)
  = run_rounds fuel k node (to_current g) s.
Proof.
  induction k as [|k IH]; intros g s Hwf Hin; [reflexivity|].
  simpl. rewrite <- (legacy_traverseFrom_agrees fuel g s node Hwf Hin).
  destruct (part_000.traverseFrom fuel g s node) as [[g1 s1]| |] eqn:E1;
    [|reflexivity|reflexivity].
  apply legacy_traverseFrom_frame in E1 as (Em & En & Ee).
  simpl. apply IH.
  - eapply wf_same_containers; eassumption.
  - rewrite En. exact Hin.
Qed.

Lemma legacy_range_nodes_agrees fuel (r : Z) (ns : list loc) : forall g s,
  part_000.wf g -> (forall n, n ∈ ns -> n ∈ part_000.nodes g) ->
  (part_000.range_nodes fuel r ns g s ≫= lift_current)
  = range_nodes fuel r ns (to_current g) s.
Proof.
  induction ns as [|n ns IH]; intros g s Hwf Hns; [reflexivity|].
  simpl. destruct (negb (IsStarter (s n))).
  { apply IH; [exact Hwf|]. intros m Hm. apply Hns. right. exact Hm. }
  rewrite <- (legacy_run_rounds_agrees fuel (Z.to_nat r) n g s Hwf)
    by (apply Hns; left).
  destruct (part_000.run_rounds fuel (Z.to_nat r) n g s)
    as [[g1 s1]| |] eqn:E1; [|reflexivity|reflexivity].
  apply legacy_run_rounds_frame in E1 as (Em & En & Ee).
  simpl. apply IH.
  - eapply wf_same_containers; eassumption.
  - intros m Hm. rewrite En. apply Hns. right. exact Hm.
Qed.

(** X11. On a graph built by [NewGraph] and [AddEdge], the earlier engine
    and the current one are the same engine: [Calculate] of the earlier
    version ends as [Calculate] of the current version does on the same
    nodes with the recorded out-neighbours as edge resolver (both return,
    both panic or both exhaust the recursion depth), with the same node
    objects, random source and flags; so does a single walk from a node of
    the graph. *)
Theorem X11_engines_agree fuel g s (JumpProbability : float32)
    (RoundsPerNode : Z) :
  part_000.wf g ->
  (part_000.Calculate fuel g s JumpProbability RoundsPerNode ≫= lift_current)
  = Calculate fuel (to_current g) s JumpProbability RoundsPerNode /\
  (forall node, node ∈ part_000.nodes g ->
     (part_000.traverseFrom fuel g s node ≫= lift_current)
     = traverseFrom fuel (to_current g) s node).
Proof.
  intros Hwf. split.
  - unfold part_000.Calculate, Calculate.
    assert (Hwf1 : part_000.wf (part_000.set_jumpProbability JumpProbability g))
      by (eapply wf_same_containers; [exact Hwf|reflexivity..]).
    change (set_jumpProbability JumpProbability (to_current g))
      with (to_current (part_000.set_jumpProbability JumpProbability g)).
    set (g0 := part_000.set_jumpProbability JumpProbability g) in *.
    change (nodes (to_current g0)) with (part_000.nodes g0).
    rewrite <- (legacy_range_nodes_agrees fuel RoundsPerNode
                  (part_000.nodes g0) g0 s Hwf1) by auto.
    destruct (part_000.range_nodes fuel RoundsPerNode (part_000.nodes g0) g0 s)
      as [[g1 s1]| |]; reflexivity.
  - intros node Hin. apply legacy_traverseFrom_agrees; assumption.
Qed.

(** X12. A query of the earlier version returns what the current version
    returns on the corresponding graph, the node count being the number of
    edge lists. Its cache differs: the total is taken anew by every query
    that finds it zero, and left alone by a query that finds it non-zero,
    which also changes nothing else in the graph. *)
Theorem X12_legacy_pagerank g s (node : loc) (normalized : bool) :
  part_000.wf g ->
  snd (part_000.Pagerank g s node normalized)
  = snd (Pagerank (to_current g) s node normalized) /\
  (part_000.calculated g = true -> part_000.traversals g = 0 ->
   part_000.traversals (fst (part_000.Pagerank g s node normalized))
   = total_traversals s (part_000.nodes g) mod uint64_modulus) /\
  (part_000.traversals g <> 0 ->
   fst (part_000.Pagerank g s node normalized) = g).
Proof.
  intros Hwf. split_and!.
  - unfold part_000.Pagerank, Pagerank. simpl.
    destruct (part_000.calculated g); simpl; [|reflexivity].
    destruct (part_000.traversals g =? 0); simpl;
      rewrite (part_000.wf_length g Hwf); destruct normalized; reflexivity.
  - intros Hc Ht. unfold part_000.Pagerank. rewrite Hc, Ht. simpl.
    destruct normalized; simpl;
      apply (sum_traversals_total s (part_000.nodes g) 0);
      unfold uint64_modulus; lia.
  - intros Ht. unfold part_000.Pagerank.
    destruct (part_000.calculated g); simpl; [|reflexivity].
    apply Z.eqb_neq in Ht. rewrite Ht. destruct normalized; reflexivity.
Qed.

End LegacyFacts.

(** * The flag and the counter *)

Section CalculatedKept.

Context {loc : Type} `{EqDecision loc}.
Context {N : Type} `{Node N}.
Context {R : Type} `{RandSource R}.

Lemma Pagerank_keeps_calculated (g : Graph loc R) (s : Store loc N)
    (node : loc) (normalized : bool) :
  calculated (fst (Pagerank g s node normalized)) = calculated g.
Proof.
  destruct (calculated g) eqn:Hc.
  - rewrite Pagerank_calculated by exact Hc. simpl.
    unfold with_total. destruct (summed g); simpl; exact Hc.
  - rewrite Pagerank_not_calculated by exact Hc. exact Hc.
Qed.

(** X13. Nothing resets the [calculated] flag: once a [Calculate] has
    returned, every later query answers with a nil error, whatever
    [Calculate] and [Pagerank] calls came in between, for any node and
    whatever the node objects hold by then (this is what the package's
    tests check after [Calculate]). *)
Theorem X13_queries_succeed_after_calculate fuel
    (JumpProbability : float32) (RoundsPerNode : Z) (cs : list call)
    (g : Graph loc R) (s : Store loc N) g' s' :
  run_calls fuel (CallCalculate JumpProbability RoundsPerNode :: cs) g s
  = Done (g', s') ->
  calculated g' = true /\
  forall (s'' : Store loc N) (node : loc) (normalized : bool),
    snd (snd (Pagerank g' s'' node normalized)) = None.
Proof.
  intros E.
  assert (Hc : calculated g' = true).
  { simpl in E. apply bind_Done in E as [[g1 s1] [E1 E2]].
    apply Calculate_frame in E1 as (_ & _ & _ & _ & _ & Hc1).
    clear g s. revert g1 s1 Hc1 E2.
    induction cs as [|c cs IH]; intros g1 s1 Hc1 E2; simpl in E2.
    - injection E2 as <- _. exact Hc1.
    - apply bind_Done in E2 as [[g2 s2] [E2 E3]].
      apply (IH g2 s2); [|exact E3].
      destruct c as [jp r|node normalized]; simpl in E2.
      + apply Calculate_frame in E2 as (_ & _ & _ & _ & _ & Hc2). exact Hc2.
      + injection E2 as <- _. rewrite Pagerank_keeps_calculated. exact Hc1. }
  split; [exact Hc|].
  intros s'' node normalized.
  rewrite Pagerank_calculated by exact Hc. reflexivity.
Qed.

End CalculatedKept.

(** X14. The counter of a [Base] is a [uint64] that only [Traverse]
    writes: after [k] calls it holds the old value plus [k] modulo 2^64
    (so it wraps to 0 after 2^64 - 1 and never leaves the range), and the
    starter flag is the one the node was built with. *)
Theorem X14_Base_counter (b : base.Base) (k : nat) :
  0 <= base.traversals b < uint64_modulus ->
  Traversals (Nat.iter k Traverse b)
  = (base.traversals b + Z.of_nat k) mod uint64_modulus /\
  0 <= Traversals (Nat.iter k Traverse b) < uint64_modulus /\
  IsStarter (Nat.iter k Traverse b) = IsStarter b.
Proof.
  intros Hb.
  destruct (iter_Traverse_count k b) as [Hc Hs].
  assert (Hr : 0 <= Traversals (Nat.iter k Traverse b) < uint64_modulus).
  { destruct k as [|k]; [exact Hb|].
    change (Nat.iter (S k) Traverse b)
      with (Traverse (Nat.iter k Traverse b)).
    simpl. unfold base.Base_Traversals, base.Base_Traverse, uint64_add. simpl.
    apply Z.mod_pos_bound. reflexivity. }
  split; [|split; [exact Hr | exact Hs]].
  rewrite <- (Z.mod_small _ _ Hr). exact Hc.
Qed.

(** ** The further statements on concrete inputs *)

Import legacy_example.

Lemma X1_walk_follows_edges_witness :
  traverseFrom 2 hop_graph only_a_starts A
  = Done (set_randomSource (script.Counter 10) hop_graph,
          <[B := Traverse (only_a_starts B)]>
            (<[A := Traverse (only_a_starts A)]> only_a_starts)) /\
  exists rest : list abc,
    follows (edgesFor hop_graph) A rest /\
    (length rest < 2)%nat /\
    (forall l,
        (<[B := Traverse (only_a_starts B)]>
           (<[A := Traverse (only_a_starts A)]> only_a_starts)) l
        = Nat.iter (walks_from l (A :: rest)) Traverse (only_a_starts l)) /\
    (forall l, ~ reachable (edgesFor hop_graph) A l ->
        (<[B := Traverse (only_a_starts B)]>
           (<[A := Traverse (only_a_starts A)]> only_a_starts)) l
        = only_a_starts l).
Proof.
  assert (E : traverseFrom 2 hop_graph only_a_starts A
              = Done (set_randomSource (script.Counter 10) hop_graph,
                      <[B := Traverse (only_a_starts B)]>
                        (<[A := Traverse (only_a_starts A)]> only_a_starts)))
    by reflexivity.
  split; [exact E|].
  exact (X1_walk_follows_edges 2 hop_graph only_a_starts A _ _ E).
Defined.

Lemma X2_calculate_accumulates_witness :
  NodeContract base.Base /\
  exists (g' : Graph abc script.counter) (s' : Store abc base.Base),
    Calculate 3 hop_graph only_a_starts zero 1 = Done (g', s') /\
    exists visits : abc -> nat,
      (forall l, s' l = Nat.iter (visits l) Traverse (only_a_starts l)) /\
      (forall l, Traversals (s' l) mod uint64_modulus
                 = (Traversals (only_a_starts l) + Z.of_nat (visits l))
                   mod uint64_modulus /\
                 IsStarter (s' l) = IsStarter (only_a_starts l)) /\
      (forall l, 0 <= Traversals (only_a_starts l) ->
                 Traversals (only_a_starts l) + Z.of_nat (visits l)
                 < uint64_modulus ->
                 Traversals (s' l)
                 = Traversals (only_a_starts l) + Z.of_nat (visits l)) /\
      (forall l, (walks_from l (spec_origins only_a_starts 1 (nodes hop_graph))
                  <= visits l)%nat) /\
      (forall l,
          (forall n, n ∈ nodes hop_graph -> IsStarter (only_a_starts n) = true ->
                     ~ reachable (edgesFor hop_graph) n l) ->
          visits l = 0%nat /\ s' l = only_a_starts l).
Proof.
  split; [exact Base_NodeContract|].
  destruct (Calculate 3 hop_graph only_a_starts zero 1)
    as [[g' s']| |] eqn:E;
    [|vm_compute in E; discriminate E|vm_compute in E; discriminate E].
  exists g', s'. split; [reflexivity|].
  exact (X2_calculate_accumulates 3 hop_graph only_a_starts zero 1 g' s' E).
Defined.


Lemma cycle_no_dead_end : forall n, cycle n <> [].
Proof. intros []; discriminate. Defined.

Lemma X4_zero_jump_never_returns_witness :
  RandContract script.counter /\
  ltb zero zero = false /\
  (forall n, edgesFor cycle_graph n <> []) /\
  Calculate 50 cycle_graph fresh zero 1 = OutOfFuel.
Proof.
  split; [exact counter_RandContract|]. split; [reflexivity|].
  split; [exact cycle_no_dead_end|].
  refine (proj2 (X4_zero_jump_never_returns cycle_graph fresh zero 1
                   eq_refl cycle_no_dead_end) _ _ 50%nat).
  - exists A. split; [constructor|reflexivity].
  - lia.
Defined.

Lemma X5_single_step_walks_witness :
  RandContract script.counter /\ NodeContract base.Base /\
  leb one32 one32 = true /\
  exists (g' : Graph abc script.counter) (s' : Store abc base.Base),
    Calculate 1 cycle_graph fresh one32 2 = Done (g', s') /\
    calculated g' = true /\
    (forall l, s' l
               = Nat.iter (walks_from l (spec_origins fresh 2 (nodes cycle_graph)))
                   Traverse (fresh l)) /\
    (forall l, IsStarter (fresh l) = false -> s' l = fresh l).
Proof.
  split; [exact counter_RandContract|]. split; [exact Base_NodeContract|].
  split; [reflexivity|].
  exact (X5_single_step_walks 0 cycle_graph fresh one32 2
           (or_introl eq_refl)).
Defined.

Lemma not_in_empty_graph : A ∉ part_000.nodes empty_graph.
Proof. intros Hin. inversion Hin. Defined.

Lemma X8_AddEdge_outlinks_witness :
  part_000.wf empty_graph /\
  exists g',
    part_000.AddEdge empty_graph A B = Done g' /\
    part_000.outlinks g' A = Done [B] /\
    part_000.outlinks g' B = Done [].
Proof.
  split; [apply wf_NewGraph|].
  destruct (part_000.AddEdge empty_graph A B) as [g'| |] eqn:E;
    [|vm_compute in E; discriminate E|vm_compute in E; discriminate E].
  exists g'. split; [reflexivity|].
  pose proof (X8_AddEdge_outlinks empty_graph A B g'
                (wf_NewGraph 7) E) as (_ & Hfrom & _ & Hto).
  split; [apply Hfrom; exact not_in_empty_graph|].
  apply Hto; [|discriminate].
  intros Hin. inversion Hin.
Defined.

Lemma X9_AddEdge_order_and_frame_witness :
  part_000.wf empty_graph /\
  exists g',
    part_000.AddEdge empty_graph A B = Done g' /\
    part_000.nodes g' = [A; B] /\
    part_000.calculated g' = false.
Proof.
  split; [apply wf_NewGraph|].
  destruct (part_000.AddEdge empty_graph A B) as [g'| |] eqn:E;
    [|vm_compute in E; discriminate E|vm_compute in E; discriminate E].
  exists g'. split; [reflexivity|].
  pose proof (X9_AddEdge_order_and_frame empty_graph A B g'
                (wf_NewGraph 7) E) as (Hn & _ & Hc & _).
  split; [exact Hn | exact Hc].
Defined.

Lemma X10_outlinks_unknown_node_witness :
  part_000.wf empty_graph /\
  (A ∉ part_000.nodes empty_graph) /\
  part_000.outlinks empty_graph A = Panic.
Proof.
  split; [apply wf_NewGraph|]. split; [exact not_in_empty_graph|].
  exact (X10_outlinks_unknown_node empty_graph A
           (wf_NewGraph 7) not_in_empty_graph).
Defined.

Lemma X11_engines_agree_witness :
  exists g',
    part_000.AddEdge empty_graph A B = Done g' /\
    part_000.wf g' /\
    (part_000.Calculate 3 g' only_a_starts zero 1 ≫= lift_current)
    = Calculate 3 (to_current g') only_a_starts zero 1.
Proof.
  destruct (AddEdge_spec empty_graph A B (wf_NewGraph 7))
    as (g' & E & Hwf & _).
  exists g'. split; [exact E|]. split; [exact Hwf|].
  exact (proj1 (X11_engines_agree 3 g' only_a_starts zero 1 Hwf)).
Defined.

Lemma X12_legacy_pagerank_witness :
  exists g' g2 (s2 : Store abc base.Base),
    part_000.AddEdge empty_graph A B = Done g' /\
    part_000.Calculate 1 g' fresh one32 1 = Done (g2, s2) /\
    part_000.wf g2 /\
    part_000.calculated g2 = true /\ part_000.traversals g2 = 0 /\
    snd (part_000.Pagerank g2 s2 A false) = (one32, None) /\
    snd (part_000.Pagerank g2 s2 A false)
    = snd (Pagerank (to_current g2) s2 A false) /\
    part_000.traversals (fst (part_000.Pagerank g2 s2 A false)) = 2 /\
    fst (part_000.Pagerank (fst (part_000.Pagerank g2 s2 A false)) s2 B true)
    = fst (part_000.Pagerank g2 s2 A false).
Proof.
  destruct (AddEdge_spec empty_graph A B (wf_NewGraph 7))
    as (g' & E & Hwf & _).
  pose proof E as Ec. vm_compute in Ec. injection Ec as Hg'.
  destruct (part_000.Calculate 1 g' fresh one32 1) as [[g2 s2]| |] eqn:EC;
    [|rewrite <- Hg' in EC; vm_compute in EC; discriminate EC
     |rewrite <- Hg' in EC; vm_compute in EC; discriminate EC].
  assert (Hwf2 : part_000.wf g2).
  { unfold part_000.Calculate in EC.
    apply bind_Done in EC as [[g1 s1] [E1 E2]]. injection E2 as <- _.
    apply legacy_range_nodes_frame in E1 as (Em & En & Ee).
    eapply wf_same_containers; [exact Hwf|assumption..]. }
  pose proof EC as ECc. rewrite <- Hg' in ECc. vm_compute in ECc.
  injection ECc as Hg2 Hs2.
  exists g', g2, s2.
  split; [exact E|]. split; [exact EC|]. split; [exact Hwf2|].
  pose proof (X12_legacy_pagerank g2 s2 A false Hwf2) as (Hval & Hfill & _).
  pose proof (X12_legacy_pagerank
                (fst (part_000.Pagerank g2 s2 A false)) s2 B true) as Hkeep.
  assert (Hc : part_000.calculated g2 = true)
    by (rewrite <- Hg2; reflexivity).
  assert (Ht : part_000.traversals g2 = 0)
    by (rewrite <- Hg2; reflexivity).
  assert (Htot : part_000.traversals (fst (part_000.Pagerank g2 s2 A false))
                 = 2).
  { rewrite (Hfill Hc Ht), <- Hg2, <- Hs2. reflexivity. }
  split; [exact Hc|]. split; [exact Ht|].
  split; [rewrite <- Hg2, <- Hs2; reflexivity|].
  split; [exact Hval|]. split; [exact Htot|].
  assert (Hwf3 : part_000.wf (fst (part_000.Pagerank g2 s2 A false))).
  { eapply wf_same_containers; [exact Hwf2|..];
      unfold part_000.Pagerank; rewrite Hc, Ht; reflexivity. }
  apply (proj2 (proj2 (Hkeep Hwf3))).
  rewrite Htot. discriminate.
Defined.

Lemma X13_queries_succeed_after_calculate_witness :
  exists (g' : Graph abc script.counter) (s' : Store abc base.Base),
    run_calls 2 calculate_twice lone_graph fresh = Done (g', s') /\
    calculated g' = true /\
    forall (s'' : Store abc base.Base) (node : abc) (normalized : bool),
      snd (snd (Pagerank g' s'' node normalized)) = None.
Proof.
  destruct (run_calls 2 calculate_twice lone_graph fresh)
    as [[g' s']| |] eqn:E;
    [|vm_compute in E; discriminate E|vm_compute in E; discriminate E].
  exists g', s'. split; [reflexivity|].
  exact (X13_queries_succeed_after_calculate 2 one32 1 _
           lone_graph fresh g' s' E).
Defined.

Lemma X14_Base_counter_witness :
  0 <= 18446744073709551615 < uint64_modulus /\
  Traversals (Nat.iter 1 Traverse
                {| base.traversals := 18446744073709551615;
                   base.nonstarter := true |}) = 0.
Proof.
  split; [unfold uint64_modulus; lia|].
  exact (proj1 (X14_Base_counter
                  {| base.traversals := 18446744073709551615;
                     base.nonstarter := true |} 1
                  ltac:(unfold uint64_modulus; simpl; lia))).
Defined.

(** * Graphs without cycles *)

Section Acyclic.

Context {loc : Type} `{EqDecision loc}.
Context {N : Type} `{Node N}.
Context {R : Type} `{RandSource R} `{!RandContract R}.

Implicit Types (g : Graph loc R) (s : Store loc N) (node : loc).

(** [rank] goes down along every edge. *)
Variable rank : loc -> nat.

Lemma traverseFrom_returns fuel : forall g s node,
  (forall n m, m ∈ edgesFor g n -> (rank m < rank n)%nat) ->
  (rank node < fuel)%nat ->
  exists g' s', traverseFrom fuel g s node = Done (g', s').
Proof.
  induction fuel as [|fuel IH]; intros g s node Hrank Hfuel; [lia|].
  simpl.
  destruct (Float32 (randomSource g)) as [x r].
  destruct (ltb x (jumpProbability g)); [eauto|].
  destruct (Z.of_nat (length (edgesFor g node)) <? 1) eqn:Elen; [eauto|].
  destruct (Intn_lookup (edgesFor g node) r Elen) as [Hneg [next Hnext]].
  simpl. destruct (Intn _ r) as [k r']. simpl in Hneg, Hnext.
  rewrite Hneg, Hnext. apply IH; [exact Hrank|].
  apply list_elem_of_lookup_2, Hrank in Hnext. lia.
Qed.

Lemma run_rounds_returns fuel (k : nat) node : forall g s,
  (forall n m, m ∈ edgesFor g n -> (rank m < rank n)%nat) ->
  (rank node < fuel)%nat ->
  exists g' s', run_rounds fuel k node g s = Done (g', s').
Proof.
  induction k as [|k IH]; intros g s Hrank Hfuel; simpl; [eauto|].
  destruct (traverseFrom_returns fuel g s node Hrank Hfuel)
    as (g1 & s1 & E1).
  rewrite E1. simpl. apply IH; [|exact Hfuel].
  apply traverseFrom_same_but_random in E1 as (_ & -> & _). exact Hrank.
Qed.

Lemma range_nodes_returns fuel (r : Z) (ns : list loc) : forall g s,
  (forall n m, m ∈ edgesFor g n -> (rank m < rank n)%nat) ->
  (forall n, n ∈ ns -> (rank n < fuel)%nat) ->
  exists g' s', range_nodes fuel r ns g s = Done (g', s').
Proof.
  induction ns as [|n ns IH]; intros g s Hrank Hfuel; simpl; [eauto|].
  assert (Hns : forall m, m ∈ ns -> (rank m < fuel)%nat)
    by (intros m Hm; apply Hfuel; right; exact Hm).
  destruct (negb (IsStarter (s n))); [apply IH; assumption|].
  destruct (run_rounds_returns fuel (Z.to_nat r) n g s Hrank)
    as (g1 & s1 & E1); [apply Hfuel; left|].
  rewrite E1. simpl. apply IH; [|exact Hns].
  apply run_rounds_same_but_random in E1 as (_ & -> & _). exact Hrank.
Qed.

(** X15. On a graph without cycles (some rank goes down along every edge
    that the resolver returns) every walk ends at a dead end at the
    latest, whatever the jump probability: a walk from a node returns
    within rank + 1 steps, and [Calculate] returns, for every jump
    probability and number of rounds, once the recursion may go deeper
    than the largest rank in the collection. *)
Theorem X15_acyclic_graph_terminates fuel g s
    (JumpProbability : float32) (RoundsPerNode : Z) :
  (forall n m, m ∈ edgesFor g n -> (rank m < rank n)%nat) ->
  (forall n, n ∈ nodes g -> (rank n < fuel)%nat) ->
  (exists g' s',
      Calculate fuel g s JumpProbability RoundsPerNode = Done (g', s')) /\
  (forall node, exists g' s',
      traverseFrom (S (rank node)) g s node = Done (g', s')).
Proof.
  intros Hrank Hfuel. split.
  - unfold Calculate.
    destruct (range_nodes_returns fuel RoundsPerNode (nodes g)
                (set_jumpProbability JumpProbability g) s Hrank Hfuel)
      as (g1 & s1 & E1).
    simpl nodes. rewrite E1. simpl. eauto.
  - intros node. apply traverseFrom_returns; [exact Hrank|lia].
Qed.

End Acyclic.

Lemma a_to_b_rank (n m : abc) :
  m ∈ a_to_b n ->
  ((match m with A => 1 | _ => 0 end) < (match n with A => 1 | _ => 0 end))%nat.
Proof.
  destruct n; simpl; intros Hin.
  - apply list_elem_of_singleton in Hin as ->. lia.
  - inversion Hin.
  - inversion Hin.
Defined.

Lemma X15_acyclic_graph_terminates_witness :
  RandContract script.counter /\
  (forall n m : abc, m ∈ edgesFor hop_graph n ->
     ((match m with A => 1 | _ => 0 end)
      < (match n with A => 1 | _ => 0 end))%nat) /\
  (forall n : abc, n ∈ nodes hop_graph ->
     ((match n with A => 1 | _ => 0 end) < 2)%nat) /\
  exists (g' : Graph abc script.counter) (s' : Store abc base.Base),
    Calculate 2 hop_graph only_a_starts zero 5 = Done (g', s').
Proof.
  assert (Hfuel : forall n : abc, n ∈ nodes hop_graph ->
            ((match n with A => 1 | _ => 0 end) < 2)%nat)
    by (intros []; lia).
  split; [exact counter_RandContract|]. split; [exact a_to_b_rank|].
  split; [exact Hfuel|].
  exact (proj1 (X15_acyclic_graph_terminates
                  (fun n : abc => match n with A => 1%nat | _ => 0%nat end)
                  2 hop_graph only_a_starts zero 5 a_to_b_rank Hfuel)).
Defined.

Lemma X7_AddEdge_keeps_shape_witness :
  part_000.wf empty_graph /\
  exists g',
    part_000.AddEdge empty_graph A A = Done g' /\
    part_000.wf g' /\
    NoDup (part_000.nodes g') /\
    A ∈ part_000.nodes g' /\ A ∈ part_000.nodes g'.
Proof.
  split; [exact (proj1 X7_AddEdge_keeps_shape 7)|].
  exact (proj2 X7_AddEdge_keeps_shape empty_graph A A
           (proj1 X7_AddEdge_keeps_shape 7)).
Defined.
